(** * TADbit read-pair filtering: [pytadbit.mapping.filter]

    A shallow embedding of [apply_filter] and [filter_reads]
    (src/_pytadbit/mapping/filter.py) together with the Python 2 built-ins
    they rely on, followed by the properties of the two functions.

    Conventions.  A Python 2 [str] is a byte string and is modelled by
    [string] (a list of 8-bit [ascii]).  A file is modelled by its content.
    Python integers are [Z].  A [dict] is a [gmap], a [set] a [gset].
    An exception that leaves the function is a [Raise]. *)

From Stdlib Require Import Ascii String QArith Qround Lqa.
From stdpp Require Import gmap strings list sorting.

Local Open Scope Z_scope.
#[local] Arguments String.append !_ _ / : simpl nomatch.
#[local] Set Warnings "-clear-no-such-hyp".

(** ** Exceptions *)

Inductive exn := KeyError | ValueError | IndexError.

Inductive result (A : Type) : Type :=
| Ok (a : A)
| Raise (e : exn).
Arguments Ok {A} a.
Arguments Raise {A} e.

(** Sequencing, written [x ← r; k]: the first exception ends the run. *)
Global Instance result_bind : MBind result := λ A B k r,
  match r with
  | Ok a => k a
  | Raise e => Raise e
  end.

(** ** Python 2 built-ins *)

Module Py.

Definition TAB : ascii := "009"%char.
Definition NL : ascii := "010"%char.

(** [c.isspace()] for a byte in the C locale: the separators of [str.split()]. *)
Definition isspace (c : ascii) : bool :=
  match nat_of_ascii c with
  | 9%nat | 10%nat | 11%nat | 12%nat | 13%nat | 32%nat => true
  | _ => false
  end.

(** [for line in open(fnam)]: the content cut after every newline; each line
    keeps its terminator, the last line may lack one. *)
Fixpoint lines (s : string) : list string :=
  match s with
  | EmptyString => []
  | String c s' =>
      if Ascii.eqb c NL then String c EmptyString :: lines s'
      else match lines s' with
           | [] => [String c EmptyString]
           | l :: ls => String c l :: ls
           end
  end.

(** [line.split('\t', 1)[0]]: the text before the first tab, the whole line
    when it has none. *)
Fixpoint first_field (line : string) : string :=
  match line with
  | EmptyString => EmptyString
  | String c rest =>
      if Ascii.eqb c TAB then EmptyString else String c (first_field rest)
  end.

(** [line.split()]: the maximal runs of non-space bytes; [w] is the word
    being read. *)
Fixpoint split_from (w : string) (s : string) : list string :=
  match s with
  | EmptyString => match w with EmptyString => [] | _ => [w] end
  | String c s' =>
      if isspace c then
        match w with
        | EmptyString => split_from EmptyString s'
        | _ => w :: split_from EmptyString s'
        end
      else split_from (w +:+ String c EmptyString) s'
  end.

Definition split (s : string) : list string := split_from EmptyString s.

(** [int(s)] on a field without blanks: an optional sign and at least one
    decimal digit; anything else is a [ValueError]. *)
Definition digit (c : ascii) : option Z :=
  let n := nat_of_ascii c in
  if (48 <=? n)%nat && (n <=? 57)%nat then Some (Z.of_nat n - 48) else None.

Fixpoint digits (acc : Z) (s : string) : option Z :=
  match s with
  | EmptyString => Some acc
  | String c s' =>
      match digit c with
      | Some d => digits (10 * acc + d) s'
      | None => None
      end
  end.

Definition unsigned (s : string) : option Z :=
  match s with
  | EmptyString => None
  | _ => digits 0 s
  end.

Definition int (s : string) : result Z :=
  let r := match s with
           | String "+" s' => unsigned s'
           | String "-" s' => Z.opp <$> unsigned s'
           | _ => unsigned s
           end in
  match r with
  | Some z => Ok z
  | None => Raise ValueError
  end.

(** [l[i]]: a negative index counts from the end. *)
Definition index (l : list Z) (i : Z) : result Z :=
  let n := Z.of_nat (length l) in
  let j := if i <? 0 then n + i else i in
  if (0 <=? j) && (j <? n) then
    match l !! Z.to_nat j with
    | Some x => Ok x
    | None => Raise IndexError
    end
  else Raise IndexError.

(** [tuple(sorted((a, b)))] on byte strings. *)
Definition sorted_pair (a b : string) : string * string :=
  if String.leb a b then (a, b) else (b, a).

(** [sorted(l)] on integers. *)
Definition sorted (l : list Z) : list Z := merge_sort Z.le l.

(** [int(x)] on a float: truncation towards zero. *)
Definition trunc (q : Q) : Z :=
  if Qle_bool 0 q then Qfloor q else Qceiling q.

End Py.

(** ** [apply_filter] *)

(** [masked_reads.update(masked[filt])] for every [filt] of [filters]. *)
Fixpoint update_masked_reads (masked : gmap Z (gset string)) (filters : list Z)
    (masked_reads : gset string) : result (gset string) :=
  match filters with
  | [] => Ok masked_reads
  | filt :: rest =>
      match masked !! filt with
      | Some reads => update_masked_reads masked rest (masked_reads ∪ reads)
      | None => Raise KeyError
      end
  end.

(** The second loop: [out.write(line)] for the lines whose read is not masked. *)
Fixpoint write_unmasked (masked_reads : gset string) (lines : list string) : string :=
  match lines with
  | [] => EmptyString
  | line :: rest =>
      let read := Py.first_field line in
      if decide (read ∈ masked_reads) then write_unmasked masked_reads rest
      else line +:+ write_unmasked masked_reads rest
  end.

(** [filters or masked.keys()]: [None] and the empty list are both false. *)
Definition filters_or_keys (masked : gmap Z (gset string))
    (filters : option (list Z)) : list Z :=
  match filters with
  | Some (filt :: rest) => filt :: rest
  | _ => (map_to_list masked).*1
  end.

(** [fnam] is the content of the input file, the result the content written
    to [outfile] (a different path).  [masked] maps a category to the set of
    read ids it flags. *)
Definition apply_filter (fnam : string) (masked : gmap Z (gset string))
    (filters : option (list Z)) : result string :=
  masked_reads ← update_masked_reads masked (filters_or_keys masked filters) ∅;
  Ok (write_unmasked masked_reads (Py.lines fnam)).

(** ** [filter_reads] *)

(** One value of the [masked] dictionary: [{'name': ..., 'reads': set()}]. *)
Record entry := { name : string; reads : gset string }.

(** The state of the loop over the lines. *)
Record loop_state := {
  masked : gmap Z entry;
  uniq_check : gmap (string * string) string
}.

(** The keyword arguments, [verbose] apart: the report it prints is no part
    of the returned value. *)
Record params := {
  max_molecule_length : Z;
  over_represented : Q;
  max_frag_size : Z;
  min_frag_size : Z;
  re_proximity : Z
}.

Definition masked_init : gmap Z entry :=
  list_to_map
    [ (1, {| name := "self-circle"; reads := ∅ |});
      (2, {| name := "dangling-end"; reads := ∅ |});
      (3, {| name := "extra dangling-end"; reads := ∅ |});
      (4, {| name := "error"; reads := ∅ |});
      (5, {| name := "duplicated"; reads := ∅ |});
      (6, {| name := "too close from RE"; reads := ∅ |});
      (7, {| name := "too short"; reads := ∅ |});
      (8, {| name := "too large"; reads := ∅ |});
      (9, {| name := "over-represented"; reads := ∅ |}) ].

(** [masked[k]["reads"]], and the sets [apply_filter] is given. *)
Definition reads_of (masked : gmap Z entry) (k : Z) : gset string :=
  from_option reads ∅ (masked !! k).

Definition read_sets (masked : gmap Z entry) : gmap Z (gset string) :=
  reads <$> masked.

(** [masked[k]["reads"].add(read)]; [k] is one of the nine keys of
    [masked_init], which no step removes ([masked_keys] below). *)
Definition add_read (k : Z) (read : string) (masked : gmap Z entry) : gmap Z entry :=
  alter (λ e, {| name := name e; reads := reads e ∪ {[read]} |}) k masked.

(** Lines 80 to 85: the duplicate check on the key of the two start positions. *)
Definition check_uniq (read : string) (uniq_key : string * string)
    (st : loop_state) : loop_state :=
  match uniq_check st !! uniq_key with
  | None =>
      {| masked := masked st; uniq_check := <[uniq_key := read]> (uniq_check st) |}
  | Some first =>
      let masked1 := add_read 5 read (masked st) in
      let masked2 :=
        if decide (first ∉ reads_of masked1 5) then add_read 5 first masked1
        else masked1 in
      {| masked := masked2; uniq_check := uniq_check st |}
  end.

(** Lines 88 to 117: the chain of rules on the converted fields.
    [(ps2 > ps1) == sd2] compares a boolean with an integer, [True] being 1;
    [ps2 > ps1 != sd2] is a chained comparison, [ps2 > ps1 and ps1 != sd2]. *)
Definition classify (P : params) (frag_count : gmap (string * Z) Z) (cut : Z)
    (read cr1 cr2 : string) (ps1 ps2 sd1 sd2 re1 rs1 re2 rs2 : Z)
    (masked : gmap Z entry) : gmap Z entry :=
  if decide (cr1 ≠ cr2) then masked
  else if decide (re1 = re2) then
    if decide (sd1 ≠ sd2) then
      if decide (Z.b2z (bool_decide (ps2 > ps1)) = sd2) then add_read 1 read masked
      else add_read 2 read masked
    else add_read 4 read masked
  else if decide (Z.abs (ps1 - ps2) < max_molecule_length P
                  ∧ ps1 ≠ ps2
                  ∧ (ps2 > ps1 ∧ ps1 ≠ sd2)) then
    add_read 3 read masked
  else if decide (Z.abs (re1 - ps1) < re_proximity P
                  ∨ Z.abs (rs1 - ps1) < re_proximity P
                  ∨ Z.abs (re2 - ps2) < re_proximity P
                  ∨ Z.abs (rs2 - ps2) < re_proximity P) then
    add_read 6 read masked
  else if decide (re1 - rs1 < min_frag_size P ∨ re2 - rs2 < min_frag_size P) then
    add_read 7 read masked
  else if decide (re1 - rs1 > max_frag_size P ∨ re2 - rs2 > max_frag_size P) then
    add_read 8 read masked
  else if decide (default 0 (frag_count !! (cr1, rs1)) > cut
                  ∨ default 0 (frag_count !! (cr2, rs2)) > cut) then
    add_read 9 read masked
  else masked.

(** The body of the loop, lines 78 to 117.  The unpacking wants exactly
    thirteen fields, [map(int, ...)] wants eight integer literals. *)
Definition process_line (P : params) (frag_count : gmap (string * Z) Z) (cut : Z)
    (st : loop_state) (line : string) : result loop_state :=
  match Py.split line with
  | [read; cr1; ps1; sd1; _; rs1; re1; cr2; ps2; sd2; _; rs2; re2] =>
      let uniq_key := Py.sorted_pair (cr1 +:+ ps1) (cr2 +:+ ps2) in
      let st := check_uniq read uniq_key st in
      ps1 ← Py.int ps1; ps2 ← Py.int ps2;
      sd1 ← Py.int sd1; sd2 ← Py.int sd2;
      re1 ← Py.int re1; rs1 ← Py.int rs1;
      re2 ← Py.int re2; rs2 ← Py.int rs2;
      Ok {| masked := classify P frag_count cut read cr1 cr2
                        ps1 ps2 sd1 sd2 re1 rs1 re2 rs2 (masked st);
            uniq_check := uniq_check st |}
  | _ => Raise ValueError
  end.

(** [for line in open(fnam): ...] *)
Fixpoint process_lines (P : params) (frag_count : gmap (string * Z) Z) (cut : Z)
    (st : loop_state) (lines : list string) : result loop_state :=
  match lines with
  | [] => Ok st
  | line :: rest =>
      st' ← process_line P frag_count cut st line;
      process_lines P frag_count cut st' rest
  end.

Section Float.

(** Python floats are binary64.  An operation on floats is the exact
    operation on rationals followed by the rounding [rnd] to the nearest
    binary64; what the properties below use of [rnd] is stated where it is
    used.  [exact] is arithmetic without rounding error. *)
Variable rnd : Q → Q.

(** Line 74: [int((1 - over_represented) * num_frags + 0.5)]. *)
Definition cut_index (over_represented : Q) (num_frags : Z) : Z :=
  Py.trunc
    (rnd (rnd (rnd (1 - over_represented) * rnd (inject_Z num_frags)) + (1 # 2))).

(** Lines 73 to 75. *)
Definition threshold (frag_count : gmap (string * Z) Z)
    (over_represented : Q) : result Z :=
  let num_frags := Z.of_nat (size frag_count) in
  let cut := cut_index over_represented num_frags in
  Py.index (Py.sorted ((map_to_list frag_count).*2)) cut.

(** [frag_count] is what [count_re_fragments(fnam)] returned, [fnam] the
    content of the file. *)
Definition filter_reads (frag_count : gmap (string * Z) Z) (fnam : string)
    (P : params) : result (gmap Z entry) :=
  cut ← threshold frag_count (over_represented P);
  st ← process_lines P frag_count cut
         {| masked := masked_init; uniq_check := ∅ |} (Py.lines fnam);
  Ok (masked st).

End Float.

Definition exact (q : Q) : Q := q.

(** The default keyword arguments; [0.005] is the float nearest to 1/200. *)
Definition default_params (rnd : Q → Q) : params :=
  {| max_molecule_length := 500;
     over_represented := rnd (1 # 200);
     max_frag_size := 100000;
     min_frag_size := 100;
     re_proximity := 5 |}.

(** ** Building test inputs *)

(** A line of tab-separated fields with its newline. *)
Definition tsv_line (fields : list string) : string :=
  String.concat (String Py.TAB EmptyString) fields +:+ String Py.NL EmptyString.

Definition tsv (rows : list (list string)) : string :=
  String.concat EmptyString (tsv_line <$> rows).

(** A file of two reads, the first flagged by category 1, the second by
    category 2. *)
Definition two_reads : string := tsv [["r1"; "x"]; ["r2"; "y"]].

Definition two_categories : gmap Z (gset string) :=
  {[ 1 := {["r1"]}; 2 := {["r2"]} ]}.

(** ** Vocabulary of the statements *)

(** The lines a file is cut into: all end with their only newline, except
    perhaps the last, which then has none and is not empty. *)
Fixpoint nl_free (s : string) : Prop :=
  match s with
  | EmptyString => True
  | String c s' => c ≠ Py.NL ∧ nl_free s'
  end.

Fixpoint terminated (s : string) : Prop :=
  match s with
  | EmptyString => False
  | String c s' => if Ascii.eqb c Py.NL then s' = EmptyString else terminated s'
  end.

Fixpoint well_cut (ls : list string) : Prop :=
  match ls with
  | [] => True
  | l :: ls' =>
      match ls' with
      | [] => terminated l ∨ (l ≠ EmptyString ∧ nl_free l)
      | _ => terminated l ∧ well_cut ls'
      end
  end.

(** The content of a file made of the given lines. *)
Definition join (ls : list string) : string := foldr String.append EmptyString ls.

(** The lines whose read id (first tab-delimited field) is outside [U]. *)
Definition unmasked (U : gset string) (ls : list string) : list string :=
  filter (λ l, Py.first_field l ∉ U) ls.

(** Selector correctness for the categories [S], as the specification words
    it: the output has exactly the lines whose read id is in none of the
    sets of the categories of [S], unchanged and in order. *)
Definition selector_correct (F : string) (masked : gmap Z (gset string))
    (S : list Z) : Prop :=
  ∃ (out : string) (U : gset string),
    apply_filter F masked (Some S) = Ok out
    ∧ (∀ id, id ∈ U ↔ ∃ k s, k ∈ S ∧ masked !! k = Some s ∧ id ∈ s)
    ∧ Py.lines out = unmasked U (Py.lines F).

(** Selector idempotence, as the specification words it: a second run on
    the output, with the empty list of categories, returns it unchanged. *)
Definition selector_idempotent (F : string) (masked : gmap Z (gset string))
    (S : list Z) : Prop :=
  ∀ out, apply_filter F masked (Some S) = Ok out →
         apply_filter out masked (Some []) = Ok out.

(** The read id and the duplicate key that [process_line] takes from a line
    of thirteen fields. *)
Definition read_of (line : string) : string :=
  default EmptyString (head (Py.split line)).

Definition uniq_key_of (line : string) : string * string :=
  match Py.split line with
  | _ :: cr1 :: ps1 :: _ :: _ :: _ :: _ :: cr2 :: ps2 :: _ =>
      Py.sorted_pair (cr1 +:+ ps1) (cr2 +:+ ps2)
  | _ => (EmptyString, EmptyString)
  end.

(** The categories set by the rules on positions, fragments and counts. *)
Definition geometry : list Z := [1; 2; 3; 4; 6; 7; 8; 9].

(** Invariant of the loop for the rules on geometry: their categories hold
    only reads of lines already seen, and no read twice. *)
Definition geometry_inv (seen : gset string) (masked : gmap Z entry) : Prop :=
  (∀ c, c ∈ geometry → reads_of masked c ⊆ seen)
  ∧ (∀ c1 c2, c1 ∈ geometry → c2 ∈ geometry → c1 ≠ c2 →
              reads_of masked c1 ## reads_of masked c2).

(** Invariant of the loop for the duplicate check.  [hist] lists the key and
    the read of the lines already seen.  A key is either new, or seen once
    and recorded with that read, or recorded and all its reads flagged. *)
Definition dup_inv (hist : list ((string * string) * string))
    (st : loop_state) : Prop :=
  ∀ key,
    (uniq_check st !! key = None ∧ ∀ i a, hist !! i ≠ Some (key, a))
    ∨ (∃ first i0, uniq_check st !! key = Some first
                   ∧ ∀ i a, hist !! i = Some (key, a) → i = i0 ∧ a = first)
    ∨ (is_Some (uniq_check st !! key)
       ∧ ∀ i a, hist !! i = Some (key, a) → a ∈ reads_of (masked st) 5).

Definition key_and_read (line : string) : (string * string) * string :=
  (uniq_key_of line, read_of line).

(** The line goes through the body of the loop without an exception. *)
Definition parses (P : params) (frag_count : gmap (string * Z) Z) (cut : Z)
    (st : loop_state) (line : string) : Prop :=
  ∃ st', process_line P frag_count cut st line = Ok st'.

Definition is_int (field : string) : Prop := ∃ z, Py.int field = Ok z.

Global Instance is_int_dec (field : string) : Decision (is_int field).
Proof.
  unfold is_int. destruct (Py.int field) as [z|e].
  - left. by exists z.
  - right. by intros [z ?].
Defined.

(** A line of fourteen fields, all the numeric ones integers. *)
Definition fourteen_fields : string :=
  tsv_line ["r1"; "chr1"; "120"; "0"; "x"; "100"; "400";
            "chr1"; "380"; "1"; "x"; "100"; "400"; "extra"].

Definition thirteen_fields : string :=
  tsv_line ["r1"; "chr1"; "120"; "0"; "x"; "100"; "400";
            "chr1"; "380"; "1"; "x"; "100"; "400"].

(** Two fragments, seen 3 and 7 times. *)
Definition two_fragments : gmap (string * Z) Z :=
  {[ ("chr1", 100) := 3; ("chr1", 500) := 7 ]}.

Definition one_fragment : gmap (string * Z) Z := {[ ("chr1", 100) := 3 ]}.

(** Three read pairs on one fragment: the first points outwards, the second
    and the third point inwards and start at the same two positions. *)
Definition pair_r1 : string :=
  tsv_line ["r1"; "chr1"; "120"; "0"; "x"; "100"; "400";
            "chr1"; "380"; "1"; "x"; "100"; "400"].

Definition pair_r2 : string :=
  tsv_line ["r2"; "chr1"; "130"; "1"; "x"; "100"; "400";
            "chr1"; "370"; "0"; "x"; "100"; "400"].

Definition pair_r3 : string :=
  tsv_line ["r3"; "chr1"; "370"; "0"; "x"; "100"; "400";
            "chr1"; "130"; "1"; "x"; "100"; "400"].

Definition three_pairs : string := pair_r1 +:+ pair_r2 +:+ pair_r3.

(** The default arguments but for the fraction, one half. *)
Definition half_params : params :=
  {| max_molecule_length := 500;
     over_represented := 1 # 2;
     max_frag_size := 100000;
     min_frag_size := 100;
     re_proximity := 5 |}.

Definition start_state : loop_state :=
  {| masked := masked_init; uniq_check := ∅ |}.

(** The test of rule 3 as the specification words it, beside the one the
    code makes: [ps2 > ps1 != sd2] is [ps2 > ps1 and ps1 != sd2]. *)
Definition facing_claim (P : params) (ps1 ps2 sd2 : Z) : Prop :=
  Z.abs (ps1 - ps2) < max_molecule_length P
  ∧ ps1 ≠ ps2
  ∧ Z.b2z (bool_decide (ps2 > ps1)) ≠ sd2.

Definition facing_code (P : params) (ps1 ps2 sd2 : Z) : Prop :=
  Z.abs (ps1 - ps2) < max_molecule_length P
  ∧ ps1 ≠ ps2
  ∧ (ps2 > ps1 ∧ ps1 ≠ sd2).

(** The eight fields that [map(int, ...)] converts. *)
Definition numeric_fields (line : string) : list string :=
  match Py.split line with
  | _ :: _ :: ps1 :: sd1 :: _ :: rs1 :: re1 :: _ :: ps2 :: sd2 :: _ :: rs2 :: re2 :: _ =>
      [ps1; ps2; sd1; sd2; re1; rs1; re2; rs2]
  | _ => []
  end.

(** A file whose reads are in no category of [two_categories]. *)
Definition other_reads : string := tsv [["r3"; "z"]; ["r4"]].

(** The two chromosome fields of a line are equal. *)
Definition same_chromosome (line : string) : Prop :=
  match Py.split line with
  | _ :: cr1 :: _ :: _ :: _ :: _ :: _ :: cr2 :: _ => cr1 = cr2
  | _ => False
  end.

(** Invariant of the loop: the categories of the rules on geometry hold only
    reads of lines already seen whose two chromosomes are equal. *)
Definition intra_inv (seen : list string) (m : gmap Z entry) : Prop :=
  ∀ c id, c ∈ geometry → id ∈ reads_of m c →
    ∃ line, line ∈ seen ∧ read_of line = id ∧ same_chromosome line.

(** Invariant of the loop: a read recorded for a key was seen with that key,
    and a read of category 5 was seen with a key that was seen twice. *)
Definition dup_sound (hist : list ((string * string) * string))
    (st : loop_state) : Prop :=
  (∀ key first, uniq_check st !! key = Some first →
     ∃ i, hist !! i = Some (key, first))
  ∧ (∀ id, id ∈ reads_of (masked st) 5 →
       ∃ i j key other,
         i ≠ j ∧ hist !! i = Some (key, id) ∧ hist !! j = Some (key, other)).

(** The fields of a line after the conversions of lines 86 and 87. *)
Record read_pair := {
  rp_read : string;
  rp_cr1 : string; rp_ps1 : Z; rp_sd1 : Z; rp_rs1 : Z; rp_re1 : Z;
  rp_cr2 : string; rp_ps2 : Z; rp_sd2 : Z; rp_rs2 : Z; rp_re2 : Z
}.

Definition parse_line (line : string) : option read_pair :=
  match Py.split line with
  | [read; cr1; ps1; sd1; _; rs1; re1; cr2; ps2; sd2; _; rs2; re2] =>
      match Py.int ps1, Py.int ps2, Py.int sd1, Py.int sd2,
            Py.int re1, Py.int rs1, Py.int re2, Py.int rs2 with
      | Ok ps1, Ok ps2, Ok sd1, Ok sd2, Ok re1, Ok rs1, Ok re2, Ok rs2 =>
          Some {| rp_read := read;
                  rp_cr1 := cr1; rp_ps1 := ps1; rp_sd1 := sd1;
                  rp_rs1 := rs1; rp_re1 := re1;
                  rp_cr2 := cr2; rp_ps2 := ps2; rp_sd2 := sd2;
                  rp_rs2 := rs2; rp_re2 := re2 |}
      | _, _, _, _, _, _, _, _ => None
      end
  | _ => None
  end.

(** The category that the chain of rules of lines 88 to 117 gives to a
    pair, if any. *)
Definition category (P : params) (frag_count : gmap (string * Z) Z) (cut : Z)
    (rp : read_pair) : option Z :=
  if decide (rp_cr1 rp ≠ rp_cr2 rp) then None
  else if decide (rp_re1 rp = rp_re2 rp) then
    if decide (rp_sd1 rp ≠ rp_sd2 rp) then
      if decide (Z.b2z (bool_decide (rp_ps2 rp > rp_ps1 rp)) = rp_sd2 rp)
      then Some 1 else Some 2
    else Some 4
  else if decide (facing_code P (rp_ps1 rp) (rp_ps2 rp) (rp_sd2 rp)) then Some 3
  else if decide (Z.abs (rp_re1 rp - rp_ps1 rp) < re_proximity P
                  ∨ Z.abs (rp_rs1 rp - rp_ps1 rp) < re_proximity P
                  ∨ Z.abs (rp_re2 rp - rp_ps2 rp) < re_proximity P
                  ∨ Z.abs (rp_rs2 rp - rp_ps2 rp) < re_proximity P) then Some 6
  else if decide (rp_re1 rp - rp_rs1 rp < min_frag_size P
                  ∨ rp_re2 rp - rp_rs2 rp < min_frag_size P) then Some 7
  else if decide (rp_re1 rp - rp_rs1 rp > max_frag_size P
                  ∨ rp_re2 rp - rp_rs2 rp > max_frag_size P) then Some 8
  else if decide (default 0 (frag_count !! (rp_cr1 rp, rp_rs1 rp)) > cut
                  ∨ default 0 (frag_count !! (rp_cr2 rp, rp_rs2 rp)) > cut)
  then Some 9
  else None.

(** Invariant of the loop: a category of the rules on geometry holds the
    reads of the lines seen that the chain of rules puts there. *)
Definition category_inv (P : params) (frag_count : gmap (string * Z) Z) (cut : Z)
    (seen : list string) (m : gmap Z entry) : Prop :=
  ∀ c id, c ∈ geometry →
    id ∈ reads_of m c
    ↔ ∃ line rp, line ∈ seen ∧ parse_line line = Some rp
                 ∧ rp_read rp = id ∧ category P frag_count cut rp = Some c.

(** ** [apply_filter] on what [filter_reads] returns

    [masked_reads.update(v)] iterates over [v]: a set gives its elements, a
    dictionary its keys.  The values of the dictionary that [filter_reads]
    returns are dictionaries with the keys ['name'] and ['reads']. *)
Inductive masked_value :=
| ReadIds (s : gset string)
| Entry (e : entry).

Definition iterate (v : masked_value) : gset string :=
  match v with
  | ReadIds s => s
  | Entry _ => {[ "name"; "reads" ]}
  end.

Definition apply_filter_values (fnam : string) (masked : gmap Z masked_value)
    (filters : option (list Z)) : result string :=
  apply_filter fnam (iterate <$> masked) filters.

(** ** [is_asymmetric_dico] and [symmetrize_dico]

    src/_pytadbit/parsers/hic_parser.py, lines 37 to 63.  [hic] is the
    dictionary of the cells of a matrix of [ncol] columns, cell [(i, j)] at
    the key [i * ncol + j], with raw counts (integers) as values; a cell
    that is missing counts as 0.  [ncol] is [len(hic)], the size of the
    matrix as the class [HiC_data] defines it; the class is not among these
    sources, so [ncol] is an argument.  Assignments go to the dictionary
    itself: [optimal_reader], the caller, sets [HiC_data.__setitem__] to the
    one of [dict]. *)

Module HiC.

(** [xrange(i, n)] *)
Definition range (i n : nat) : list nat := seq i (n - i).

(** [hic.get(p, 0)] *)
Definition get (hic : gmap nat Z) (p : nat) : Z := default 0 (hic !! p).

(** Lines 42 to 48: [True] at the first pair of cells that differ. *)
Definition is_asymmetric_dico (ncol : nat) (hic : gmap nat Z) : bool :=
  existsb (λ i,
    existsb (λ j,
      let p1 := (i * ncol + j)%nat in
      let p2 := (j * ncol + i)%nat in
      negb (get hic p1 =? get hic p2))
    (range i ncol))
  (range 0 ncol).

(** Lines 59 to 63, the body of the inner loop; [if val:] is [val != 0]. *)
Definition symmetrize_cell (ncol : nat) (hic : gmap nat Z) (i j : nat) : gmap nat Z :=
  let incol := (i * ncol)%nat in
  let p1 := (incol + j)%nat in
  let p2 := (j * ncol + i)%nat in
  let val := get hic p1 + get hic p2 in
  if decide (val ≠ 0) then <[p2 := val]> (<[p1 := val]> hic) else hic.

(** Lines 55 to 63; the result is the dictionary after the update in place. *)
Definition symmetrize_dico (ncol : nat) (hic : gmap nat Z) : gmap nat Z :=
  foldl (λ hic i, foldl (λ hic j, symmetrize_cell ncol hic i j) hic (range i ncol))
        hic (range 0 ncol).

(** Lines 135 to 137 of [optimal_reader]: the flag [symmetricized] and the
    dictionary. *)
Definition make_symmetric (ncol : nat) (hic : gmap nat Z) : bool * gmap nat Z :=
  if is_asymmetric_dico ncol hic then (true, symmetrize_dico ncol hic)
  else (false, hic).

(** The value of cell [(i, j)]. *)
Definition cell (ncol : nat) (hic : gmap nat Z) (i j : nat) : Z :=
  get hic (i * ncol + j)%nat.

(** The pairs [(i, j)] in the order of the two loops. *)
Definition pairs (ncol : nat) : list (nat * nat) :=
  i ← range 0 ncol; pair i <$> range i ncol.

(** A matrix of two columns, [[1, 2], [5, 0]] and its symmetric sum. *)
Definition two_by_two : gmap nat Z := {[ 0%nat := 1; 1%nat := 2; 2%nat := 5 ]}.

End HiC.

(** ** [is_asymmetric] and [symmetrize]

    src/_pytadbit/parsers/hic_parser.py, lines 22 to 34 and 66 to 73.
    [matrix] is a list of rows, each a list of its own, as [autoreader]
    builds them: a write to a row is seen through that row only.  The
    values are numbers of a type [A], integers or floats, with [ne] for
    [!=], [add] for [+] and [isnan] for [math.isnan], which raises
    [OverflowError] on an integer too large for a float. *)

Module Mat.

Inductive exn := IndexError | OverflowError.

Inductive result (A : Type) : Type :=
| Ok (a : A)
| Raise (e : exn).
Arguments Ok {A} a.
Arguments Raise {A} e.

Global Instance result_bind : MBind result := λ A B k r,
  match r with
  | Ok a => k a
  | Raise e => Raise e
  end.

(** [l[i]] and [l[i] = v] for an index that is not negative. *)
Definition getitem {B} (l : list B) (i : nat) : result B :=
  match l !! i with
  | Some x => Ok x
  | None => Raise IndexError
  end.

Definition setitem {B} (l : list B) (i : nat) (v : B) : result (list B) :=
  if decide (i < length l)%nat then Ok (<[i := v]> l) else Raise IndexError.

(** A [for] loop over [l] that updates [s] and stops at an exception. *)
Fixpoint for_each {S B} (l : list B) (body : S → B → result S) (s : S) : result S :=
  match l with
  | [] => Ok s
  | x :: l => s ← body s x; for_each l body s
  end.

Section Matrix.

Context {A : Type} (ne : A → A → bool) (isnan : A → result bool) (add : A → A → A).

(** [matrix[i][j]] and [matrix[i][j] = v] *)
Definition getcell (matrix : list (list A)) (i j : nat) : result A :=
  row ← getitem matrix i; getitem row j.

Definition setcell (matrix : list (list A)) (i j : nat) (v : A) :
    result (list (list A)) :=
  row ← getitem matrix i; row ← setitem row j v; Ok (<[i := row]> matrix).

(** Lines 29 to 33, the inner loop over [js]; [Ok true] is [return True].
    [isnan(a) and isnan(b)] asks the second only when the first holds. *)
Fixpoint differs_in (matrix : list (list A)) (maxi : list A) (i : nat)
    (js : list nat) : result bool :=
  match js with
  | [] => Ok false
  | j :: js =>
      a ← getitem maxi j; b ← getcell matrix j i;
      if ne a b then
        na ← isnan a;
        both ← (if na : bool then isnan b else Ok false);
        if both : bool then differs_in matrix maxi i js else Ok true
      else differs_in matrix maxi i js
  end.

(** Lines 27 to 34, the outer loop over [rows]. *)
Fixpoint is_asymmetric_from (matrix : list (list A)) (maxn : nat)
    (rows : list nat) : result bool :=
  match rows with
  | [] => Ok false
  | i :: rows =>
      maxi ← getitem matrix i;
      found ← differs_in matrix maxi i (HiC.range (i + 1) maxn);
      if found : bool then Ok true else is_asymmetric_from matrix maxn rows
  end.

Definition is_asymmetric (matrix : list (list A)) : result bool :=
  let maxn := length matrix in
  is_asymmetric_from matrix maxn (HiC.range 0 maxn).

(** Line 73: the sum is computed, then stored in [matrix[i][j]], then in
    [matrix[j][i]]. *)
Definition symmetrize_cell (matrix : list (list A)) (i j : nat) :
    result (list (list A)) :=
  a ← getcell matrix i j; b ← getcell matrix j i;
  let v := add a b in
  matrix ← setcell matrix i j v; setcell matrix j i v.

(** Lines 70 to 73; the result is the matrix after the update in place. *)
Definition symmetrize (matrix : list (list A)) : result (list (list A)) :=
  let maxn := length matrix in
  for_each (HiC.range 0 maxn)
    (λ matrix i,
       for_each (HiC.range i maxn) (λ matrix j, symmetrize_cell matrix i j) matrix)
    matrix.

(** The value of cell [(i, j)], if there is one, and the sum that
    [symmetrize] stores for the pair [(i, j)]. *)
Definition cell (matrix : list (list A)) (i j : nat) : option A :=
  row ← matrix !! i; row !! j.

Definition cell_sum (matrix : list (list A)) (i j : nat) : option A :=
  a ← cell matrix i j; b ← cell matrix j i; Some (add a b).

(** Every row has at least as many columns as the matrix has rows. *)
Definition wide (matrix : list (list A)) : Prop :=
  Forall (λ row, (length matrix ≤ length row)%nat) matrix.

(** Equal, or both not a number: what [is_asymmetric] lets pass. *)
Definition same (a b : A) : Prop :=
  ne a b = false ∨ (isnan a = Ok true ∧ isnan b = Ok true).

End Matrix.

(** Integers that a float can hold: [math.isnan] returns [False]. *)
Definition int_ne (a b : Z) : bool := negb (a =? b).
Definition int_isnan (a : Z) : result bool := Ok false.

Definition two_by_two : list (list Z) := [[1; 2]; [5; 0]].

End Mat.

(** * Properties of [apply_filter] *)

Section Lines.

Lemma ascii_eqb_NL c : Ascii.eqb c Py.NL = bool_decide (c = Py.NL).
Proof.
  destruct (Ascii.eqb_spec c Py.NL) as [->|Hne].
  - by rewrite bool_decide_eq_true_2.
  - by rewrite bool_decide_eq_false_2.
Qed.

Lemma lines_terminated l s : terminated l → Py.lines (l +:+ s) = l :: Py.lines s.
Proof.
  induction l as [|c l IH]; simpl; [done|].
  destruct (Ascii.eqb c Py.NL); intros Hl.
  - by subst l.
  - by rewrite IH.
Qed.

Lemma lines_unterminated l : l ≠ EmptyString → nl_free l → Py.lines l = [l].
Proof.
  induction l as [|c l IH]; simpl; [done|].
  intros _ [Hc Hl]. rewrite ascii_eqb_NL, bool_decide_eq_false_2 by done.
  destruct l as [|c' l]; [done|]. by rewrite IH.
Qed.

Lemma append_empty_r s : s +:+ EmptyString = s.
Proof. induction s as [|c s IH]; simpl; [done|by rewrite IH]. Qed.

Lemma lines_join ls : well_cut ls → Py.lines (join ls) = ls.
Proof.
  induction ls as [|l ls IH]; [done|].
  simpl. destruct ls as [|l' ls].
  - intros [Hl|[Hne Hl]].
    + by rewrite lines_terminated.
    + simpl. rewrite append_empty_r. by apply lines_unterminated.
  - intros [Hl Hls]. rewrite lines_terminated by done. by rewrite IH.
Qed.

Lemma well_cut_cons l ls : well_cut (l :: ls) → well_cut ls.
Proof. destruct ls; simpl; [done|]. by intros [_ ?]. Qed.

Lemma well_cut_cons_terminated l ls : terminated l → well_cut ls → well_cut (l :: ls).
Proof. destruct ls; simpl; auto. Qed.

Lemma well_cut_lines s : well_cut (Py.lines s).
Proof.
  induction s as [|c s IH]; [done|].
  cbn [Py.lines]. rewrite ascii_eqb_NL. case_bool_decide as Hc.
  - apply well_cut_cons_terminated; [|done]. subst c. done.
  - destruct (Py.lines s) as [|l ls]; [simpl; right; by repeat split|].
    destruct ls as [|l' ls]; simpl in *;
      rewrite ascii_eqb_NL, bool_decide_eq_false_2 by done.
    + destruct IH as [?|[? ?]]; [by left|right; by repeat split].
    + done.
Qed.

Lemma join_lines s : join (Py.lines s) = s.
Proof.
  induction s as [|c s IH]; [done|].
  cbn [Py.lines]. destruct (Ascii.eqb c Py.NL).
  - simpl. by rewrite IH.
  - destruct (Py.lines s) as [|l ls]; simpl in *; by rewrite <- IH.
Qed.

Lemma well_cut_unmasked U ls : well_cut ls → well_cut (unmasked U ls).
Proof.
  unfold unmasked. induction ls as [|l ls IH]; [done|].
  intros Hwc. specialize (IH (well_cut_cons _ _ Hwc)).
  rewrite filter_cons. case_decide; [|done].
  destruct ls as [|l' ls]; [done|].
  destruct Hwc as [Hl _]. by apply well_cut_cons_terminated.
Qed.

Lemma write_unmasked_join U ls : write_unmasked U ls = join (unmasked U ls).
Proof.
  unfold unmasked. induction ls as [|l ls IH]; [done|].
  simpl. rewrite filter_cons. destruct (decide (Py.first_field l ∈ U)).
  - rewrite decide_False by auto. done.
  - rewrite decide_True by auto. simpl. by rewrite IH.
Qed.

(** The lines written are the lines kept. *)
Lemma lines_write_unmasked U F :
  Py.lines (write_unmasked U (Py.lines F)) = unmasked U (Py.lines F).
Proof.
  rewrite write_unmasked_join. apply lines_join, well_cut_unmasked, well_cut_lines.
Qed.

Lemma unmasked_subseteq U1 U2 ls :
  U1 ⊆ U2 → unmasked U2 (unmasked U1 ls) = unmasked U2 ls.
Proof.
  intros HU. unfold unmasked. induction ls as [|l ls IH]; [done|].
  rewrite !filter_cons. destruct (decide (Py.first_field l ∉ U1)) as [H1|H1].
  - rewrite filter_cons. case_decide; by rewrite IH.
  - rewrite decide_False; [done|]. intros H2. apply H1. set_solver.
Qed.

End Lines.

Section Selector.

Implicit Types (masked : gmap Z (gset string)) (U : gset string).

Lemma elem_of_keys masked k : k ∈ (map_to_list masked).*1 ↔ k ∈ dom masked.
Proof.
  rewrite elem_of_dom, list_elem_of_fmap. split.
  - intros [[k' s] [-> Hks%elem_of_map_to_list]]. by exists s.
  - intros [s Hs]. exists (k, s). by rewrite elem_of_map_to_list.
Qed.

(** What the first loop returns: the accumulated union. *)
Lemma update_masked_reads_Ok masked fs acc U :
  update_masked_reads masked fs acc = Ok U →
  Forall (λ k, k ∈ dom masked) fs
  ∧ ∀ id, id ∈ U ↔ id ∈ acc ∨ ∃ k s, k ∈ fs ∧ masked !! k = Some s ∧ id ∈ s.
Proof.
  revert acc. induction fs as [|k fs IH]; intros acc; simpl.
  - intros [= <-]. split; [constructor|]. intros id. split; [auto|].
    intros [?|(k & s & Hk & _)]; [done|]. by apply elem_of_nil in Hk.
  - destruct (masked !! k) as [s|] eqn:Hk; [|done].
    intros [Hdom HU]%IH. split.
    + constructor; [|done]. apply elem_of_dom. by exists s.
    + intros id. rewrite HU, elem_of_union. split.
      * intros [[?|?]|(k' & s' & ? & ? & ?)]; [by left| |].
        -- right. exists k, s. by rewrite elem_of_cons; auto.
        -- right. exists k', s'. by rewrite elem_of_cons; auto.
      * intros [?|(k' & s' & [->|?]%elem_of_cons & Hk' & ?)]; [by auto| |].
        -- left; right. congruence.
        -- right. by exists k', s'.
Qed.

(** The first loop raises only on a category that [masked] lacks. *)
Lemma update_masked_reads_total masked fs acc :
  Forall (λ k, k ∈ dom masked) fs →
  ∃ U, update_masked_reads masked fs acc = Ok U.
Proof.
  intros Hfs. revert acc. induction Hfs as [|k fs Hk _ IH]; intros acc; simpl.
  - by exists acc.
  - apply elem_of_dom in Hk as [s ->]. apply IH.
Qed.

Lemma filters_or_keys_nonempty masked S :
  S ≠ [] → filters_or_keys masked (Some S) = S.
Proof. by destruct S. Qed.

Lemma filters_or_keys_dom masked filters :
  (∀ S, filters = Some S → Forall (λ k, k ∈ dom masked) S) →
  Forall (λ k, k ∈ dom masked) (filters_or_keys masked filters).
Proof.
  intros HS. destruct filters as [[|k S]|]; simpl; [|by apply HS|];
    apply Forall_forall; intros k'; by rewrite elem_of_keys.
Qed.

(** The run with the effective list of categories [fs]. *)
Lemma apply_filter_Ok F masked filters out :
  apply_filter F masked filters = Ok out →
  ∃ U, update_masked_reads masked (filters_or_keys masked filters) ∅ = Ok U
       ∧ out = write_unmasked U (Py.lines F).
Proof.
  unfold apply_filter.
  destruct (update_masked_reads _ _ _) as [U|e] eqn:HU; simpl; [|done].
  intros [= <-]. by exists U.
Qed.

Lemma apply_filter_all F masked :
  ∃ out U,
    apply_filter F masked None = Ok out
    ∧ (∀ id, id ∈ U ↔ ∃ k s, masked !! k = Some s ∧ id ∈ s)
    ∧ Py.lines out = unmasked U (Py.lines F).
Proof.
  destruct (update_masked_reads_total masked (filters_or_keys masked None) ∅)
    as [U HU]; [by apply filters_or_keys_dom|].
  exists (write_unmasked U (Py.lines F)), U. split; [|split].
  - unfold apply_filter. by rewrite HU.
  - apply update_masked_reads_Ok in HU as [_ HU]. intros id. rewrite HU.
    split.
    + intros [?|(k & s & _ & ? & ?)]; [done|]. by exists k, s.
    + intros (k & s & Hk & ?). right. exists k, s. split; [|done].
      apply elem_of_keys, elem_of_dom. by exists s.
  - apply lines_write_unmasked.
Qed.

End Selector.

(** C1, as stated, fails for the empty list of categories: the specification
    keeps every line there (the union of no set is empty), the code applies
    all the categories and here keeps none. *)
Lemma selector_correct_empty_counterexample :
  ¬ selector_correct two_reads two_categories [].
Proof.
  intros (out & U & Hout & HU & Hlines).
  vm_compute in Hout. injection Hout as <-.
  assert (HU' : ∀ id, id ∉ U).
  { intros id (k & s & Hk & _)%HU. by apply elem_of_nil in Hk. }
  change (Py.lines EmptyString) with (@nil string) in Hlines.
  unfold unmasked in Hlines.
  destruct (Py.lines two_reads) as [|l ls] eqn:Hl; [by vm_compute in Hl|].
  rewrite filter_cons, decide_True in Hlines by apply HU'. done.
Qed.

(** C1 (amended): for every file [F] and every non-empty list [S] of
    categories of [masked], [apply_filter] returns a file whose lines are
    exactly the lines of [F] whose first tab-delimited field is in none of
    the read-id sets of the categories of [S], byte for byte and in the
    order of [F]. *)
Theorem apply_filter_correct (F : string) (masked : gmap Z (gset string))
    (S : list Z) :
  S ≠ [] → Forall (λ k, k ∈ dom masked) S → selector_correct F masked S.
Proof.
  intros HS Hdom.
  destruct (update_masked_reads_total masked S ∅ Hdom) as [U HU].
  exists (write_unmasked U (Py.lines F)), U. split; [|split].
  - unfold apply_filter. by rewrite filters_or_keys_nonempty, HU.
  - apply update_masked_reads_Ok in HU as [_ HU]. intros id. rewrite HU.
    split; [|by auto]. by intros [?|?].
  - apply lines_write_unmasked.
Qed.

Lemma apply_filter_correct_witness :
  selector_correct two_reads two_categories [1].
Proof.
  apply apply_filter_correct.
  - discriminate.
  - apply (bool_decide_unpack _). vm_compute. exact I.
Defined.

(** C2, as stated, fails: after a run with category 1 only, the run with the
    empty list applies category 2 as well and removes the second read. *)
Lemma selector_idempotent_counterexample :
  ¬ selector_idempotent two_reads two_categories [1].
Proof.
  intros H.
  specialize (H (tsv [["r2"; "y"]])).
  assert (Hrun : apply_filter two_reads two_categories (Some [1])
                 = Ok (tsv [["r2"; "y"]])) by (by vm_compute).
  specialize (H Hrun). vm_compute in H. discriminate.
Qed.

(** C2 (amended): a second run on the output with the same [filters]
    returns the output unchanged; a second run with the empty list applies
    every category of [masked], and returns what the run on [F] with the
    empty list returns. *)
Theorem apply_filter_idempotent (F : string) (masked : gmap Z (gset string))
    (filters : option (list Z)) (out : string) :
  apply_filter F masked filters = Ok out →
  apply_filter out masked filters = Ok out
  ∧ apply_filter out masked (Some []) = apply_filter F masked (Some []).
Proof.
  intros (U & HU & ->)%apply_filter_Ok. split.
  - unfold apply_filter. rewrite HU. simpl. f_equal.
    rewrite lines_write_unmasked, !write_unmasked_join.
    by rewrite unmasked_subseteq.
  - destruct (update_masked_reads_total masked
                (filters_or_keys masked (Some [])) ∅) as [V HV];
      [apply filters_or_keys_dom; intros ? [= <-]; constructor|].
    unfold apply_filter. rewrite HV. simpl. f_equal.
    rewrite lines_write_unmasked, !write_unmasked_join.
    rewrite unmasked_subseteq; [done|].
    apply update_masked_reads_Ok in HU as [Hdom HU].
    apply update_masked_reads_Ok in HV as [_ HV].
    intros id [?|(k & s & Hk & Hs & Hid)]%HU; [done|].
    apply HV. right. exists k, s. split; [|done].
    apply elem_of_keys, elem_of_dom. by exists s.
Qed.

Lemma apply_filter_idempotent_witness :
  apply_filter (tsv [["r2"; "y"]]) two_categories (Some [1])
    = Ok (tsv [["r2"; "y"]])
  ∧ apply_filter (tsv [["r2"; "y"]]) two_categories (Some [])
    = apply_filter two_reads two_categories (Some []).
Proof.
  apply (apply_filter_idempotent two_reads two_categories (Some [1])).
  vm_compute. reflexivity.
Defined.

(** C10: the empty list of categories behaves as the omitted argument: every
    category of [masked] is applied, and the lines written are those whose
    read id is in no read-id set at all. *)
Theorem apply_filter_empty_filters (F : string) (masked : gmap Z (gset string)) :
  apply_filter F masked (Some []) = apply_filter F masked None
  ∧ ∃ (out : string) (U : gset string),
      apply_filter F masked (Some []) = Ok out
      ∧ (∀ id, id ∈ U ↔ ∃ k s, masked !! k = Some s ∧ id ∈ s)
      ∧ Py.lines out = unmasked U (Py.lines F).
Proof.
  split; [done|]. apply (apply_filter_all F masked).
Qed.

(** * Properties of [filter_reads] *)

Section Masked.

Implicit Types (masked : gmap Z entry) (read : string) (c : Z).

Lemma dom_add_read c read masked : dom (add_read c read masked) = dom masked.
Proof. unfold add_read. apply dom_alter_L. Qed.

Lemma reads_of_add_read_ne c c' read masked :
  c ≠ c' → reads_of (add_read c read masked) c' = reads_of masked c'.
Proof. intros Hc. unfold reads_of, add_read. by rewrite lookup_alter_ne. Qed.

(** On a key of the dictionary, [add_read] adds the read and nothing else. *)
Lemma reads_of_add_read c read masked :
  c ∈ dom masked →
  reads_of (add_read c read masked) c = reads_of masked c ∪ {[read]}.
Proof.
  intros [e He]%elem_of_dom. unfold reads_of, add_read.
  rewrite lookup_alter_eq, He. done.
Qed.

Lemma reads_of_add_read_mono c c' read masked :
  reads_of masked c' ⊆ reads_of (add_read c read masked) c'.
Proof.
  destruct (decide (c = c')) as [<-|Hc]; [|by rewrite reads_of_add_read_ne].
  unfold reads_of, add_read. rewrite lookup_alter_eq.
  destruct (masked !! c); simpl; set_solver.
Qed.

Lemma reads_of_add_read_bound c c' read masked :
  reads_of (add_read c read masked) c' ⊆ reads_of masked c' ∪ {[read]}.
Proof.
  destruct (decide (c = c')) as [<-|Hc].
  - unfold reads_of, add_read. rewrite lookup_alter_eq.
    destruct (masked !! c); simpl; set_solver.
  - rewrite reads_of_add_read_ne by done. set_solver.
Qed.

(** The nine keys of the dictionary. *)
Lemma dom_masked_init : dom masked_init = list_to_set [1; 2; 3; 4; 5; 6; 7; 8; 9].
Proof. unfold masked_init. rewrite dom_list_to_map_L. done. Qed.

(** The chain of rules leaves [masked] as it is or adds the read to one
    category, which is not 5. *)
Lemma classify_cases P fc cut read cr1 cr2 ps1 ps2 sd1 sd2 re1 rs1 re2 rs2 masked :
  let masked' := classify P fc cut read cr1 cr2 ps1 ps2 sd1 sd2 re1 rs1 re2 rs2 masked in
  masked' = masked ∨ ∃ c, c ∈ geometry ∧ masked' = add_read c read masked.
Proof.
  unfold classify, geometry.
  repeat case_decide;
    first [by left | right; eexists; split; [|done]; by apply (bool_decide_unpack _)].
Qed.

Lemma check_uniq_cases read key st :
  let st' := check_uniq read key st in
  dom (masked st') = dom (masked st)
  ∧ (∀ c, c ≠ 5 → reads_of (masked st') c = reads_of (masked st) c)
  ∧ reads_of (masked st) 5 ⊆ reads_of (masked st') 5.
Proof.
  unfold check_uniq. destruct (uniq_check st !! key) as [first|]; simpl.
  - case_decide.
    + rewrite !dom_add_read. split; [done|]. split.
      * intros c Hc. by rewrite !reads_of_add_read_ne.
      * etrans; apply reads_of_add_read_mono.
    + rewrite !dom_add_read. split; [done|]. split.
      * intros c Hc. by rewrite !reads_of_add_read_ne.
      * apply reads_of_add_read_mono.
  - done.
Qed.

End Masked.

Section Loop.

Context (P : params) (frag_count : gmap (string * Z) Z) (cut : Z).

(** Case analysis on the thirteen fields of a line that [process_line]
    accepts, and on the eight conversions. *)
Ltac split_thirteen H :=
  let l := fresh "fields" in
  unfold process_line, read_of, uniq_key_of in *;
  destruct (Py.split _) as [|? l] in H |- *; [done|];
  do 12 (destruct l as [|? l]; [done|]);
  destruct l; [|done].

Ltac eight_ints H :=
  do 8 (match type of H with
        | context [Py.int ?f] => destruct (Py.int f); simpl in H; [|done]
        end).

(** What one turn of the loop does to the state. *)
Lemma process_line_Ok st line st' :
  process_line P frag_count cut st line = Ok st' →
  let st1 := check_uniq (read_of line) (uniq_key_of line) st in
  uniq_check st' = uniq_check st1
  ∧ (masked st' = masked st1
     ∨ ∃ c, c ∈ geometry ∧ masked st' = add_read c (read_of line) (masked st1)).
Proof.
  intros H. split_thirteen H. simpl in H. eight_ints H.
  injection H as <-. simpl. split; [done|]. apply classify_cases.
Qed.

Lemma process_line_dom st line st' :
  process_line P frag_count cut st line = Ok st' →
  dom (masked st') = dom (masked st).
Proof.
  intros [_ Hm]%process_line_Ok.
  pose proof (check_uniq_cases (read_of line) (uniq_key_of line) st) as [Hd _].
  destruct Hm as [->|(c & _ & ->)]; by rewrite ?dom_add_read.
Qed.

(** No turn of the loop removes a key of [masked]: the nine categories
    stay, and [add_read] never misses its key. *)
Lemma masked_keys st lines st' :
  process_lines P frag_count cut st lines = Ok st' →
  dom (masked st') = dom (masked st).
Proof.
  revert st. induction lines as [|line lines IH]; intros st; simpl.
  - by intros [= <-].
  - destruct (process_line P frag_count cut st line) as [st1|] eqn:Hl; [|done].
    simpl. intros ->%IH. by eapply process_line_dom.
Qed.

(** A run of the loop, cut at its last line. *)
Lemma process_lines_snoc st lines line :
  process_lines P frag_count cut st (lines ++ [line])
  = st' ← process_lines P frag_count cut st lines;
    process_line P frag_count cut st' line.
Proof.
  revert st. induction lines as [|l lines IH]; intros st; simpl.
  - by destruct (process_line P frag_count cut st line).
  - destruct (process_line P frag_count cut st l); simpl; [apply IH|done].
Qed.

(** A line that raises ends the loop. *)
Lemma process_lines_raise st lines line :
  line ∈ lines →
  (∀ st1, ¬ parses P frag_count cut st1 line) →
  ∃ e, process_lines P frag_count cut st lines = Raise e.
Proof.
  intros Hin Hbad. revert st. induction lines as [|l lines IH]; intros st.
  - by apply elem_of_nil in Hin.
  - simpl. destruct (process_line P frag_count cut st l) as [st1|e] eqn:Hl.
    + apply elem_of_cons in Hin as [->|Hin].
      * destruct (Hbad st). by exists st1.
      * simpl. by apply IH.
    + by exists e.
Qed.

(** The lines that go through the body of the loop. *)
Lemma process_line_parses st line :
  parses P frag_count cut st line ↔
  ∃ read cr1 ps1 sd1 x1 rs1 re1 cr2 ps2 sd2 x2 rs2 re2,
    Py.split line = [read; cr1; ps1; sd1; x1; rs1; re1; cr2; ps2; sd2; x2; rs2; re2]
    ∧ Forall is_int [ps1; ps2; sd1; sd2; re1; rs1; re2; rs2].
Proof.
  unfold parses. split.
  - intros [st' H]. unfold process_line in H.
    destruct (Py.split line) as [|read fields]; [done|].
    do 12 (destruct fields as [|? fields]; [done|]).
    destruct fields; [|done]. do 13 eexists. split; [done|].
    unfold is_int. simpl in H.
    repeat (match type of H with
            | context [Py.int ?f] =>
                destruct (Py.int f) eqn:?; simpl in H; [|done]
            end).
    repeat constructor; by eexists.
  - intros (read & cr1 & ps1 & sd1 & x1 & rs1 & re1 & cr2 & ps2 & sd2 & x2
            & rs2 & re2 & Hsplit & Hints).
    unfold process_line. rewrite Hsplit.
    repeat match goal with
           | H : Forall _ (_ :: _) |- _ =>
               apply Forall_cons in H as [[? ->] H]
           end.
    simpl. by eexists.
Qed.

End Loop.

Section Exclusive.

Context (P : params) (frag_count : gmap (string * Z) Z) (cut : Z).

Lemma geometry_not_5 c : c ∈ geometry → c ≠ 5.
Proof. intros Hc ->. by apply (bool_decide_pack _) in Hc. Qed.

Lemma geometry_inv_init : geometry_inv ∅ masked_init.
Proof.
  assert (H : ∀ c, reads_of masked_init c = ∅).
  { intros c. unfold reads_of, masked_init. simpl.
    repeat (rewrite lookup_insert; case_decide; [done|]).
    by rewrite lookup_empty. }
  split; intros *; rewrite ?H; set_solver.
Qed.

Lemma disjoint_add_new (A A' B seen : gset string) (x : string) :
  A' ⊆ A ∪ {[x]} → B ⊆ seen → x ∉ seen → A ## B → A' ## B.
Proof.
  intros HA HB Hx Hd y Hy1 Hy2.
  apply HA, elem_of_union in Hy1 as [Hy1|Hy1].
  - by apply (Hd y).
  - apply elem_of_singleton in Hy1 as ->. by apply Hx, HB.
Qed.

(** A line with a new read id keeps the invariant. *)
Lemma geometry_inv_step seen st line st' :
  process_line P frag_count cut st line = Ok st' →
  read_of line ∉ seen →
  geometry_inv seen (masked st) →
  geometry_inv (seen ∪ {[read_of line]}) (masked st').
Proof.
  intros [_ Hm]%process_line_Ok Hnew [Hsub Hdisj].
  pose proof (check_uniq_cases (read_of line) (uniq_key_of line) st)
    as (_ & Hsame & _).
  set (st1 := check_uniq (read_of line) (uniq_key_of line) st) in *.
  assert (Hsame' : ∀ c, c ∈ geometry →
                        reads_of (masked st1) c = reads_of (masked st) c).
  { intros c Hc. by apply Hsame, geometry_not_5. }
  clear Hsame.
  destruct Hm as [->|(c & Hc & ->)]; split.
  - intros c Hc. rewrite Hsame' by done.
    etrans; [by apply Hsub|]. apply union_subseteq_l.
  - intros c1 c2 H1 H2 Hne. rewrite !Hsame' by done. by apply Hdisj.
  - intros c' Hc'. etrans; [apply reads_of_add_read_bound|].
    rewrite Hsame' by done.
    apply union_mono_r. by apply Hsub.
  - intros c1 c2 H1 H2 Hne.
    destruct (decide (c = c1)) as [->|Hc1].
    + rewrite (reads_of_add_read_ne c1 c2), (Hsame' c2) by done.
      eapply disjoint_add_new;
        [apply reads_of_add_read_bound|by apply Hsub|done|].
      rewrite Hsame' by done. by apply Hdisj.
    + rewrite (reads_of_add_read_ne c c1), (Hsame' c1) by done.
      symmetry. eapply disjoint_add_new;
        [apply reads_of_add_read_bound|by apply Hsub|done|].
      rewrite Hsame' by done. symmetry. by apply Hdisj.
Qed.

Lemma geometry_inv_lines seen st lines st' :
  process_lines P frag_count cut st lines = Ok st' →
  NoDup (read_of <$> lines) →
  (∀ line, line ∈ lines → read_of line ∉ seen) →
  geometry_inv seen (masked st) →
  geometry_inv (seen ∪ list_to_set (read_of <$> lines)) (masked st').
Proof.
  revert seen st. induction lines as [|line lines IH]; intros seen st Hrun.
  - injection Hrun as <-. intros _ _ Hinv.
    rewrite fmap_nil, list_to_set_nil. by rewrite (right_id_L ∅ (∪)).
  - cbn [process_lines] in Hrun.
    destruct (process_line P frag_count cut st line) as [st1|] eqn:Hl; [|done].
    change (process_lines P frag_count cut st1 lines = Ok st') in Hrun.
    rewrite fmap_cons, list_to_set_cons, (assoc_L (∪)).
    intros [Hnotin Hnodup]%NoDup_cons Hnew Hinv.
    apply (IH _ st1); [done|done| |].
    + intros l Hin. rewrite not_elem_of_union, not_elem_of_singleton. split.
      * apply Hnew. by right.
      * intros Heq. apply Hnotin. rewrite <- Heq. by apply list_elem_of_fmap_2.
    + eapply geometry_inv_step; [done| |done]. apply Hnew. by left.
Qed.

End Exclusive.

Section Duplicates.

Context (P : params) (frag_count : gmap (string * Z) Z) (cut : Z).

Lemma dup_inv_init : dup_inv [] {| masked := masked_init; uniq_check := ∅ |}.
Proof. intros key. left. split; [apply lookup_empty|]. by intros [|i] a. Qed.

(** The invariant reads only [uniq_check] and category 5. *)
Lemma dup_inv_ext hist st st' :
  uniq_check st' = uniq_check st →
  reads_of (masked st') 5 = reads_of (masked st) 5 →
  dup_inv hist st → dup_inv hist st'.
Proof. intros Hu Hr Hinv key. rewrite Hu, Hr. apply Hinv. Qed.

(** Category 5 after the duplicate check on a key already recorded. *)
Lemma check_uniq_seen read key st first :
  5 ∈ dom (masked st) →
  uniq_check st !! key = Some first →
  let st' := check_uniq read key st in
  uniq_check st' = uniq_check st
  ∧ read ∈ reads_of (masked st') 5
  ∧ first ∈ reads_of (masked st') 5
  ∧ reads_of (masked st) 5 ⊆ reads_of (masked st') 5.
Proof.
  intros Hdom Hkey. unfold check_uniq. rewrite Hkey. simpl.
  split; [done|].
  assert (Hread : read ∈ reads_of (add_read 5 read (masked st)) 5).
  { rewrite reads_of_add_read by done. set_solver. }
  pose proof (reads_of_add_read_mono 5 5 read (masked st)) as Hmono.
  case_decide as Hfirst.
  - rewrite reads_of_add_read by (by rewrite dom_add_read). set_solver.
  - set_solver.
Qed.

Lemma dup_inv_check_uniq hist read key st :
  5 ∈ dom (masked st) →
  dup_inv hist st →
  dup_inv (hist ++ [(key, read)]) (check_uniq read key st).
Proof.
  intros Hdom Hinv key'.
  destruct (uniq_check st !! key) as [first|] eqn:Hkey.
  - (* the key is recorded: the read and the first read are flagged *)
    destruct (check_uniq_seen read key st first Hdom Hkey)
      as (Hu & Hread & Hfirst & Hmono).
    rewrite Hu. destruct (decide (key' = key)) as [->|Hne].
    + right; right. split; [by rewrite Hkey|].
      intros i a [[_ Hi]|[_ [= <-]]]%lookup_snoc_Some; [|done].
      destruct (Hinv key) as [[Hnone _]|[(f & i0 & Hf & Hone)|[_ Hall]]].
      * congruence.
      * destruct (Hone i a Hi) as [_ ->]. congruence.
      * by apply Hmono, (Hall i).
    + destruct (Hinv key') as [[Hnone Hnew]|[(f & i0 & Hf & Hone)|[Hsome Hall]]].
      * left. split; [done|].
        intros i a [[_ Hi]|[_ [= ? ?]]]%lookup_snoc_Some; [|done].
        by apply (Hnew i a).
      * right; left. exists f, i0. split; [done|].
        intros i a [[_ Hi]|[_ [= ? ?]]]%lookup_snoc_Some; [|done].
        by apply Hone.
      * right; right. split; [done|].
        intros i a [[_ Hi]|[_ [= ? ?]]]%lookup_snoc_Some; [|done].
        by apply Hmono, (Hall i).
  - (* the key is new: it is recorded with this read *)
    unfold check_uniq. rewrite Hkey. simpl.
    destruct (decide (key' = key)) as [->|Hne].
    + right; left. exists read, (length hist).
      split; [by rewrite lookup_insert_eq|].
      intros i a [[_ Hi]|[-> [= <-]]]%lookup_snoc_Some; [|done].
      destruct (Hinv key) as [[_ Hnew]|[(f & i0 & Hf & _)|[[f Hf] _]]];
        [by destruct (Hnew i a)|congruence..].
    + rewrite lookup_insert_ne by done.
      destruct (Hinv key') as [[Hnone Hnew]|[(f & i0 & Hf & Hone)|[Hsome Hall]]].
      * left. split; [done|].
        intros i a [[_ Hi]|[_ [= ? ?]]]%lookup_snoc_Some; [|done].
        by apply (Hnew i a).
      * right; left. exists f, i0. split; [done|].
        intros i a [[_ Hi]|[_ [= ? ?]]]%lookup_snoc_Some; [|done].
        by apply Hone.
      * right; right. split; [done|].
        intros i a [[_ Hi]|[_ [= ? ?]]]%lookup_snoc_Some; [|done].
        by apply (Hall i).
Qed.

Lemma dup_inv_step hist st line st' :
  process_line P frag_count cut st line = Ok st' →
  5 ∈ dom (masked st) →
  dup_inv hist st →
  dup_inv (hist ++ [key_and_read line]) st'.
Proof.
  intros [Hu Hm]%process_line_Ok Hdom Hinv.
  eapply dup_inv_ext; [exact Hu| |by apply dup_inv_check_uniq].
  destruct Hm as [->|(c & Hc%(geometry_not_5) & ->)]; [done|].
  by rewrite reads_of_add_read_ne.
Qed.

Lemma dup_inv_lines hist st lines st' :
  process_lines P frag_count cut st lines = Ok st' →
  5 ∈ dom (masked st) →
  dup_inv hist st →
  dup_inv (hist ++ (key_and_read <$> lines)) st'.
Proof.
  revert hist st. induction lines as [|line lines IH]; intros hist st; simpl.
  - intros [= <-] _ Hinv. by rewrite (right_id_L [] (++)).
  - destruct (process_line P frag_count cut st line) as [st1|] eqn:Hl; [|done].
    simpl. intros Hrest Hdom Hinv. rewrite cons_middle, (assoc_L (++)).
    apply (IH _ st1); [done| |by eapply dup_inv_step].
    by rewrite (process_line_dom _ _ _ _ _ _ Hl).
Qed.

End Duplicates.

Section Threshold.

Local Open Scope Q_scope.

Lemma trunc_nonneg q : 0 <= q → Py.trunc q = Qfloor q.
Proof. intros Hq. unfold Py.trunc. by apply Qle_bool_iff in Hq as ->. Qed.

Lemma trunc_mono x y : x <= y → (Py.trunc x ≤ Py.trunc y)%Z.
Proof.
  intros Hxy. unfold Py.trunc.
  destruct (Qle_bool 0 x) eqn:Hx, (Qle_bool 0 y) eqn:Hy.
  - by apply Qfloor_resp_le.
  - apply Qle_bool_iff in Hx. apply not_true_iff_false in Hy.
    destruct Hy. apply Qle_bool_iff. lra.
  - apply not_true_iff_false in Hx. rewrite Qle_bool_iff in Hx.
    apply Qle_bool_iff in Hy.
    trans 0%Z.
    + change 0%Z with (Qceiling 0). apply Qceiling_resp_le. lra.
    + change 0%Z with (Qfloor 0). by apply Qfloor_resp_le.
  - by apply Qceiling_resp_le.
Qed.

Lemma floor_half n : Qfloor (inject_Z n + (1 # 2)) = n.
Proof.
  pose proof (Qfloor_le (inject_Z n + (1 # 2))) as Hle.
  pose proof (Qlt_floor (inject_Z n + (1 # 2))) as Hlt.
  set (k := Qfloor _) in *.
  assert (inject_Z k < inject_Z (n + 1)) as Hk1.
  { rewrite inject_Z_plus. change (inject_Z 1) with 1. lra. }
  assert (inject_Z n < inject_Z (k + 1)) as Hk2 by lra.
  rewrite <- Zlt_Qlt in Hk1, Hk2. lia.
Qed.

Lemma inject_Z_nonneg n : (0 ≤ n)%Z → 0 <= inject_Z n.
Proof. intros Hn. change 0 with (inject_Z 0). by rewrite <- Zle_Qle. Qed.

Section Rounding.

Variable rnd : Q → Q.
Hypothesis rnd_mono : ∀ x y, x <= y → rnd x <= rnd y.
Hypothesis rnd_0 : rnd 0 == 0.

Lemma rnd_nonneg x : 0 <= x → 0 <= rnd x.
Proof. intros Hx. rewrite <- rnd_0. by apply rnd_mono. Qed.

Lemma cut_index_nonneg p n : p < 1 → (0 ≤ n)%Z → (0 ≤ cut_index rnd p n)%Z.
Proof.
  intros Hp Hn. unfold cut_index.
  assert (0 <= rnd (1 - p)) by (apply rnd_nonneg; lra).
  assert (0 <= rnd (inject_Z n)) by (by apply rnd_nonneg, inject_Z_nonneg).
  assert (0 <= rnd (rnd (1 - p) * rnd (inject_Z n))).
  { apply rnd_nonneg. by apply Qmult_le_0_compat. }
  change 0%Z with (Py.trunc 0). apply trunc_mono, rnd_nonneg. lra.
Qed.

(** A larger fraction gives a smaller (or the same) index. *)
Lemma cut_index_mono p1 p2 n :
  p1 <= p2 → (0 ≤ n)%Z → (cut_index rnd p2 n ≤ cut_index rnd p1 n)%Z.
Proof.
  intros Hp Hn. unfold cut_index.
  assert (0 <= rnd (inject_Z n)) by (by apply rnd_nonneg, inject_Z_nonneg).
  apply trunc_mono, rnd_mono, Qplus_le_compat; [|lra].
  apply rnd_mono, Qmult_le_compat_r; [|done].
  apply rnd_mono. lra.
Qed.

End Rounding.

End Threshold.

Section Sorted.

Lemma length_sorted l : length (Py.sorted l) = length l.
Proof. unfold Py.sorted. by rewrite merge_sort_Permutation. Qed.

Lemma sorted_values_length (frag_count : gmap (string * Z) Z) :
  length (Py.sorted (map_to_list frag_count).*2) = size frag_count.
Proof. by rewrite length_sorted, length_fmap, length_map_to_list. Qed.

Lemma StronglySorted_lookup_le (l : list Z) i j a b :
  StronglySorted Z.le l → (i ≤ j)%nat →
  l !! i = Some a → l !! j = Some b → a ≤ b.
Proof.
  intros Hl. revert i j. induction Hl as [|x l Hl IH Hx]; intros i j Hij; [done|].
  destruct i as [|i], j as [|j]; simpl; try lia.
  - by intros [= ->] [= ->].
  - intros [= ->] Hb. rewrite Forall_forall in Hx.
    by eapply Hx, list_elem_of_lookup_2.
  - apply IH. lia.
Qed.

(** [sorted] is ascending. *)
Lemma sorted_lookup_le l i j a b :
  (i ≤ j)%nat → Py.sorted l !! i = Some a → Py.sorted l !! j = Some b → a ≤ b.
Proof.
  apply StronglySorted_lookup_le.
  apply (StronglySorted_merge_sort Z.le).
Qed.

(** An index from 0 to the length, excluded, is served. *)
Lemma index_Ok l i :
  0 ≤ i < Z.of_nat (length l) →
  ∃ x, Py.index l i = Ok x ∧ l !! Z.to_nat i = Some x.
Proof.
  intros Hi. unfold Py.index.
  destruct (Z.ltb_spec i 0); [lia|].
  destruct (Z.leb_spec 0 i); [|lia].
  destruct (Z.ltb_spec i (Z.of_nat (length l))); [|lia]. simpl.
  destruct (lookup_lt_is_Some_2 l (Z.to_nat i)) as [x Hx]; [lia|].
  rewrite Hx. by exists x.
Qed.

(** The length itself is not. *)
Lemma index_length l : Py.index l (Z.of_nat (length l)) = Raise IndexError.
Proof.
  unfold Py.index.
  destruct (Z.ltb_spec (Z.of_nat (length l)) 0); [lia|].
  destruct (Z.ltb_spec (Z.of_nat (length l)) (Z.of_nat (length l))); [lia|].
  by rewrite andb_false_r.
Qed.

End Sorted.

Section Run.

Context (rnd : Q → Q) (frag_count : gmap (string * Z) Z) (P : params).

(** A run that returns went through the threshold and through every line. *)
Lemma filter_reads_Ok F m :
  filter_reads rnd frag_count F P = Ok m →
  ∃ cut st,
    threshold rnd frag_count (over_represented P) = Ok cut
    ∧ process_lines P frag_count cut start_state (Py.lines F) = Ok st
    ∧ m = masked st.
Proof.
  unfold filter_reads, start_state.
  destruct (threshold _ _ _) as [cut|] eqn:Hcut; simpl; [|done].
  destruct (process_lines _ _ _ _ _) as [st|] eqn:Hrun; simpl; [|done].
  intros [= <-]. by exists cut, st.
Qed.

Lemma filter_reads_raise_threshold F e :
  threshold rnd frag_count (over_represented P) = Raise e →
  filter_reads rnd frag_count F P = Raise e.
Proof. unfold filter_reads. intros ->. reflexivity. Qed.

Lemma category_5 : 5 ∈ dom masked_init.
Proof. rewrite dom_masked_init. by apply (bool_decide_unpack _). Qed.

End Run.

(** Decidable facts about concrete inputs, by evaluation. *)
Ltac by_compute := apply (bool_decide_unpack _); vm_compute; exact I.

(** C3: for every input file whose read ids are all different, after a run
    of [filter_reads] that returns, a read id is in at most one of the
    categories 1, 2, 3, 4, 6, 7, 8 and 9: if it is in one of them it is in no
    other.  Category 5 is left out of the statement: the same id may be
    there too. *)
Theorem geometry_exclusive (rnd : Q → Q) (frag_count : gmap (string * Z) Z)
    (F : string) (P : params) (m : gmap Z entry) (c1 c2 : Z) (id : string) :
  filter_reads rnd frag_count F P = Ok m →
  NoDup (read_of <$> Py.lines F) →
  c1 ∈ geometry → c2 ∈ geometry → c1 ≠ c2 →
  id ∈ reads_of m c1 → id ∉ reads_of m c2.
Proof.
  intros (cut & st & _ & Hrun & ->)%filter_reads_Ok Hnodup H1 H2 Hne Hid1 Hid2.
  destruct (geometry_inv_lines P frag_count cut ∅ start_state (Py.lines F) st)
    as [_ Hdisj]; [done|done|set_solver|apply geometry_inv_init|].
  by apply (Hdisj c1 c2 H1 H2 Hne id).
Qed.

Lemma geometry_exclusive_witness :
  ∃ m, filter_reads exact two_fragments three_pairs half_params = Ok m
       ∧ "r2" ∈ reads_of m 2 ∧ "r2" ∈ reads_of m 5 ∧ "r2" ∉ reads_of m 1.
Proof.
  eexists. split; [vm_compute; reflexivity|].
  split; [by_compute|]. split; [by_compute|].
  apply (geometry_exclusive exact two_fragments three_pairs half_params _ 2 1);
    [vm_compute; reflexivity|by_compute..|discriminate|by_compute].
Defined.

(** C4: for every two lines of the file, at different places, whose keys
    (the sorted pair of the strings chromosome + position of the two ends)
    are equal, both read ids are in category 5 after a run of [filter_reads]
    that returns, whichever comes first; nothing is asked of the chromosomes
    or of the fields that the other rules read. *)
Theorem duplicates_flagged (rnd : Q → Q) (frag_count : gmap (string * Z) Z)
    (F : string) (P : params) (m : gmap Z entry) (i j : nat) (la lb : string) :
  filter_reads rnd frag_count F P = Ok m →
  Py.lines F !! i = Some la → Py.lines F !! j = Some lb → i ≠ j →
  uniq_key_of la = uniq_key_of lb →
  read_of la ∈ reads_of m 5 ∧ read_of lb ∈ reads_of m 5.
Proof.
  intros (cut & st & _ & Hrun & ->)%filter_reads_Ok Hi Hj Hne Hkey.
  pose proof (dup_inv_lines P frag_count cut [] start_state (Py.lines F) st
                Hrun category_5 dup_inv_init) as Hinv.
  rewrite (left_id_L [] (++)) in Hinv.
  assert (Hhi : (key_and_read <$> Py.lines F) !! i
                = Some (uniq_key_of la, read_of la)).
  { by rewrite list_lookup_fmap, Hi. }
  assert (Hhj : (key_and_read <$> Py.lines F) !! j
                = Some (uniq_key_of la, read_of lb)).
  { rewrite list_lookup_fmap, Hj. unfold key_and_read. simpl. by rewrite Hkey. }
  destruct (Hinv (uniq_key_of la)) as [[_ Hnew]|[(f & i0 & _ & Hone)|[_ Hall]]].
  - by destruct (Hnew i (read_of la)).
  - destruct (Hone _ _ Hhi) as [-> _], (Hone _ _ Hhj) as [-> _]. done.
  - split; [by apply (Hall i)|by apply (Hall j)].
Qed.

Lemma duplicates_flagged_witness :
  ∃ m, filter_reads exact two_fragments three_pairs half_params = Ok m
       ∧ read_of pair_r2 ∈ reads_of m 5 ∧ read_of pair_r3 ∈ reads_of m 5.
Proof.
  eexists. split; [vm_compute; reflexivity|].
  apply (duplicates_flagged exact two_fragments three_pairs half_params _ 1 2);
    [vm_compute; reflexivity..|discriminate|vm_compute; reflexivity].
Defined.

(** C5: for a rounding [rnd] that is monotone and keeps 0, a table of
    fragment counts and two fractions [p1 ≤ p2 < 1] such that the index
    computed with [p1] is below the number of fragments, both thresholds are
    computed and the one of [p2] is at most the one of [p1].  (The index of
    [p2] is then valid as well; the table has at least one fragment.) *)
Theorem threshold_monotone (rnd : Q → Q) (frag_count : gmap (string * Z) Z)
    (p1 p2 : Q) :
  (∀ x y, (x <= y)%Q → (rnd x <= rnd y)%Q) → (rnd 0 == 0)%Q →
  (p1 <= p2)%Q → (p2 < 1)%Q →
  cut_index rnd p1 (Z.of_nat (size frag_count)) < Z.of_nat (size frag_count) →
  ∃ cut1 cut2,
    threshold rnd frag_count p1 = Ok cut1
    ∧ threshold rnd frag_count p2 = Ok cut2
    ∧ cut2 ≤ cut1.
Proof.
  intros Hmono H0 Hp Hp2 Hvalid. unfold threshold.
  set (n := Z.of_nat (size frag_count)) in *.
  pose proof (cut_index_mono rnd Hmono H0 p1 p2 n Hp ltac:(lia)) as Hle.
  pose proof (cut_index_nonneg rnd Hmono H0 p2 n Hp2 ltac:(lia)) as Hge.
  destruct (index_Ok (Py.sorted (map_to_list frag_count).*2)
              (cut_index rnd p1 n)) as (cut1 & H1 & L1);
    [rewrite sorted_values_length; lia|].
  destruct (index_Ok (Py.sorted (map_to_list frag_count).*2)
              (cut_index rnd p2 n)) as (cut2 & H2 & L2);
    [rewrite sorted_values_length; lia|].
  exists cut1, cut2. split; [done|split; [done|]].
  eapply sorted_lookup_le; [|exact L2|exact L1]. lia.
Qed.

Lemma threshold_monotone_witness :
  ∃ cut1 cut2,
    threshold exact two_fragments (1 # 2) = Ok cut1
    ∧ threshold exact two_fragments (9 # 10) = Ok cut2
    ∧ cut2 ≤ cut1.
Proof.
  apply threshold_monotone.
  - intros x y Hxy. exact Hxy.
  - reflexivity.
  - lra.
  - lra.
  - vm_compute. reflexivity.
Defined.





(** The branch taken when the chromosomes are equal and the fragment ends
    differ, up to rule 3. *)
Lemma classify_facing P frag_count cut read cr ps1 ps2 sd1 sd2 re1 rs1 re2 rs2 m :
  re1 ≠ re2 → facing_code P ps1 ps2 sd2 →
  classify P frag_count cut read cr cr ps1 ps2 sd1 sd2 re1 rs1 re2 rs2 m
  = add_read 3 read m.
Proof.
  intros Hre Hfacing. unfold classify.
  rewrite decide_False by (by intros []). rewrite decide_False by done.
  by rewrite decide_True.
Qed.

Lemma classify_not_facing P frag_count cut read cr ps1 ps2 sd1 sd2 re1 rs1 re2 rs2 m :
  re1 ≠ re2 → ¬ facing_code P ps1 ps2 sd2 →
  reads_of (classify P frag_count cut read cr cr ps1 ps2 sd1 sd2 re1 rs1 re2 rs2 m) 3
  = reads_of m 3.
Proof.
  intros Hre Hfacing. unfold classify.
  rewrite decide_False by (by intros []). rewrite decide_False by done.
  rewrite decide_False by done.
  repeat case_decide; by rewrite ?reads_of_add_read_ne.
Qed.

(** C7: the code departs from the rule on two pairs of one chromosome and
    two fragments, 100 bases apart.  With positions 100 and 200 and second
    strand 1 the test [(ps2 > ps1) != sd2] fails, and the code adds the read
    to category 3.  With positions 200 and 100 and second strand 1 the test
    holds, and the code leaves category 3 as it is. *)
Theorem facing_rule_divergence (frag_count : gmap (string * Z) Z) (cut : Z)
    (read cr : string) (m : gmap Z entry) :
  (¬ facing_claim half_params 100 200 1
   ∧ classify half_params frag_count cut read cr cr 100 200 0 1 150 0 400 150 m
     = add_read 3 read m)
  ∧ (facing_claim half_params 200 100 1
     ∧ reads_of (classify half_params frag_count cut read cr cr
                   200 100 0 1 400 150 150 0 m) 3
       = reads_of m 3).
Proof.
  split; split.
  - intros (_ & _ & Hout). by apply Hout.
  - apply classify_facing; [done|]. unfold facing_code. simpl. lia.
  - unfold facing_claim. simpl. repeat split; lia.
  - apply classify_not_facing; [done|]. unfold facing_code. lia.
Qed.

(** C8, as stated, fails on a line of fourteen fields, all its numeric
    fields integers: the unpacking raises [ValueError]. *)
Lemma at_least_thirteen_counterexample :
  (13 ≤ length (Py.split fourteen_fields))%nat
  ∧ Forall is_int (numeric_fields fourteen_fields)
  ∧ ¬ parses half_params two_fragments 7 start_state fourteen_fields
  ∧ filter_reads exact two_fragments fourteen_fields half_params
    = Raise ValueError.
Proof.
  split; [vm_compute; lia|]. split; [|split].
  - by_compute.
  - intros [st' H]. vm_compute in H. discriminate.
  - vm_compute. reflexivity.
Qed.

(** C8 (amended): a line goes through the body of the loop exactly when it
    has thirteen whitespace-separated fields of which the eight numeric ones
    are integer literals; and a line of the file with another number of
    fields makes [filter_reads] raise: no classification is returned. *)
Theorem input_shape (rnd : Q → Q) (frag_count : gmap (string * Z) Z)
    (F : string) (P : params) (line : string) :
  (∀ cut st, parses P frag_count cut st line
             ↔ length (Py.split line) = 13%nat
               ∧ Forall is_int (numeric_fields line))
  ∧ (line ∈ Py.lines F → length (Py.split line) ≠ 13%nat →
     ∃ e, filter_reads rnd frag_count F P = Raise e).
Proof.
  assert (Hparses : ∀ cut st, parses P frag_count cut st line
                              ↔ length (Py.split line) = 13%nat
                                ∧ Forall is_int (numeric_fields line)).
  { intros cut st. rewrite process_line_parses. unfold numeric_fields. split.
    - intros (read & cr1 & ps1 & sd1 & x1 & rs1 & re1 & cr2 & ps2 & sd2 & x2
              & rs2 & re2 & -> & Hints). done.
    - intros [Hlen Hints]. destruct (Py.split line) as [|read fields]; [done|].
      do 12 (destruct fields as [|? fields]; [done|]).
      destruct fields; [|done]. by do 13 eexists. }
  split; [done|]. intros Hin Hlen. unfold filter_reads.
  destruct (threshold rnd frag_count (over_represented P)) as [cut|e];
    [|by exists e].
  simpl.
  destruct (process_lines_raise P frag_count cut
              {| masked := masked_init; uniq_check := ∅ |} (Py.lines F) line Hin)
    as [e He].
  - intros st1 [Hlen' _]%Hparses. done.
  - rewrite He. by exists e.
Qed.

Lemma input_shape_witness :
  parses half_params two_fragments 7 start_state thirteen_fields
  ∧ ∃ e, filter_reads exact two_fragments (thirteen_fields +:+ fourteen_fields)
           half_params = Raise e.
Proof.
  split.
  - apply (proj1 (input_shape exact two_fragments EmptyString half_params
                    thirteen_fields)).
    split; [vm_compute; reflexivity|by_compute].
  - apply (proj2 (input_shape exact two_fragments
                    (thirteen_fields +:+ fourteen_fields) half_params
                    fourteen_fields)).
    + by_compute.
    + vm_compute. discriminate.
Defined.

(** C9: the boundary is not guarded.  Without rounding error, for every
    table of [n] fragments and every fraction [0 ≤ p] with [p * n ≤ 1/2] the
    index is [n], [sorted(...)[cut]] raises [IndexError], and so does
    [filter_reads] on every file. *)
Theorem threshold_past_the_end (frag_count : gmap (string * Z) Z) (p : Q) :
  (0 <= p)%Q →
  (p * inject_Z (Z.of_nat (size frag_count)) <= 1 # 2)%Q →
  cut_index exact p (Z.of_nat (size frag_count)) = Z.of_nat (size frag_count)
  ∧ threshold exact frag_count p = Raise IndexError
  ∧ ∀ F P, over_represented P = p →
           filter_reads exact frag_count F P = Raise IndexError.
Proof.
  intros Hp Hpn.
  set (n := Z.of_nat (size frag_count)) in *.
  assert (Hn : (0 <= inject_Z n)%Q) by (apply inject_Z_nonneg; lia).
  assert (Hpn0 : (0 <= p * inject_Z n)%Q) by (by apply Qmult_le_0_compat).
  assert (Hcut : cut_index exact p n = n).
  { unfold cut_index, exact.
    rewrite trunc_nonneg by lra.
    pose proof (Qfloor_le ((1 - p) * inject_Z n + (1 # 2))) as Hle.
    pose proof (Qlt_floor ((1 - p) * inject_Z n + (1 # 2))) as Hlt.
    set (k := Qfloor _) in *.
    assert (inject_Z k < inject_Z (n + 1))%Q as Hk1.
    { rewrite inject_Z_plus. change (inject_Z 1) with 1%Q. lra. }
    assert (inject_Z n < inject_Z (k + 1))%Q as Hk2.
    { rewrite inject_Z_plus in Hlt |- *. change (inject_Z 1) with 1%Q in *. lra. }
    rewrite <- Zlt_Qlt in Hk1, Hk2. lia. }
  assert (Hraise : threshold exact frag_count p = Raise IndexError).
  { unfold threshold. fold n. rewrite Hcut. unfold n.
    rewrite <- (sorted_values_length frag_count). apply index_length. }
  split; [done|]. split; [done|].
  intros F P HP. apply filter_reads_raise_threshold. by rewrite HP.
Qed.

Lemma threshold_past_the_end_witness :
  cut_index exact (1 # 200) (Z.of_nat (size one_fragment))
  = Z.of_nat (size one_fragment)
  ∧ threshold exact one_fragment (1 # 200) = Raise IndexError
  ∧ ∀ F P, over_represented P = 1 # 200 →
           filter_reads exact one_fragment F P = Raise IndexError.
Proof.
  apply threshold_past_the_end.
  - lra.
  - vm_compute. discriminate.
Defined.

(** * More on [apply_filter] *)

Section Categories.

Implicit Types (masked : gmap Z (gset string)) (U : gset string).

(** The first loop raises nothing but [KeyError], on a category missing. *)
Lemma update_masked_reads_Raise masked fs acc e :
  update_masked_reads masked fs acc = Raise e →
  e = KeyError ∧ ∃ k, k ∈ fs ∧ masked !! k = None.
Proof.
  revert acc. induction fs as [|k fs IH]; intros acc; simpl; [done|].
  destruct (masked !! k) as [s|] eqn:Hk.
  - intros [-> (k' & Hk' & Hnone)]%IH. split; [done|].
    exists k'. split; [by right|done].
  - intros [= <-]. split; [done|]. exists k. split; [by left|done].
Qed.

(** The set the loop starts from is joined to what it collects. *)
Lemma update_masked_reads_acc masked fs acc :
  update_masked_reads masked fs acc
  = match update_masked_reads masked fs ∅ with
    | Ok U => Ok (acc ∪ U)
    | Raise e => Raise e
    end.
Proof.
  revert acc. induction fs as [|k fs IH]; intros acc; simpl.
  - by rewrite (right_id_L ∅ (∪)).
  - destruct (masked !! k) as [s|]; [|done].
    rewrite (IH (acc ∪ s)), (IH (∅ ∪ s)).
    destruct (update_masked_reads masked fs ∅) as [U|]; [|done].
    f_equal. set_solver.
Qed.

Lemma update_masked_reads_app masked fs1 fs2 acc :
  update_masked_reads masked (fs1 ++ fs2) acc
  = U ← update_masked_reads masked fs1 acc; update_masked_reads masked fs2 U.
Proof.
  revert acc. induction fs1 as [|k fs1 IH]; intros acc; simpl; [done|].
  destruct (masked !! k); [apply IH|done].
Qed.

Lemma unmasked_union U1 U2 ls :
  unmasked U2 (unmasked U1 ls) = unmasked (U1 ∪ U2) ls.
Proof.
  unfold unmasked. induction ls as [|l ls IH]; [done|].
  rewrite !filter_cons. destruct (decide (Py.first_field l ∉ U1)) as [H1|H1].
  - rewrite filter_cons. destruct (decide (Py.first_field l ∉ U2)) as [H2|H2].
    + rewrite decide_True by set_solver. by rewrite IH.
    + rewrite decide_False by set_solver. by rewrite IH.
  - rewrite decide_False by set_solver. by rewrite IH.
Qed.

Lemma unmasked_all U ls :
  Forall (λ l, Py.first_field l ∉ U) ls → unmasked U ls = ls.
Proof.
  unfold unmasked. induction 1 as [|l ls Hl _ IH]; [done|].
  by rewrite filter_cons, decide_True, IH.
Qed.

End Categories.

(** X1: [apply_filter] raises [KeyError] exactly when it is given a list
    with a category that is no key of [masked], and raises nothing else;
    without a list, or with the empty list, it always returns. *)
Theorem apply_filter_KeyError (F : string) (masked : gmap Z (gset string))
    (filters : option (list Z)) :
  (apply_filter F masked filters = Raise KeyError
   ↔ ∃ S k, filters = Some S ∧ k ∈ S ∧ masked !! k = None)
  ∧ ∀ e, apply_filter F masked filters = Raise e → e = KeyError.
Proof.
  unfold apply_filter.
  destruct (update_masked_reads masked (filters_or_keys masked filters) ∅)
    as [U|e] eqn:HU; simpl.
  - split; [|done]. split; [done|].
    intros (S & k & -> & Hk & Hnone).
    apply update_masked_reads_Ok in HU as [Hdom _].
    rewrite filters_or_keys_nonempty in Hdom by (intros ->; by apply elem_of_nil in Hk).
    rewrite Forall_forall in Hdom. apply Hdom, elem_of_dom in Hk as [s Hs].
    congruence.
  - apply update_masked_reads_Raise in HU as [-> (k & Hk & Hnone)].
    split; [|by intros e [= <-]]. split; [|done]. intros _.
    destruct filters as [[|k' S]|]; simpl in Hk.
    + apply elem_of_keys, elem_of_dom in Hk as [s Hs]. congruence.
    + by exists (k' :: S), k.
    + apply elem_of_keys, elem_of_dom in Hk as [s Hs]. congruence.
Qed.

(** X2: the order of the categories and their repetitions do not count: two
    non-empty lists with the same elements give the same result, be it a
    file or [KeyError]. *)
Theorem apply_filter_same_categories (F : string) (masked : gmap Z (gset string))
    (S1 S2 : list Z) :
  S1 ≠ [] → S2 ≠ [] → (∀ k, k ∈ S1 ↔ k ∈ S2) →
  apply_filter F masked (Some S1) = apply_filter F masked (Some S2).
Proof.
  intros HS1 HS2 Hsame. unfold apply_filter.
  rewrite !filters_or_keys_nonempty by done.
  destruct (update_masked_reads masked S1 ∅) as [U1|e1] eqn:H1,
           (update_masked_reads masked S2 ∅) as [U2|e2] eqn:H2; simpl.
  - apply update_masked_reads_Ok in H1 as [_ H1].
    apply update_masked_reads_Ok in H2 as [_ H2].
    replace U2 with U1; [done|]. apply set_eq. intros id.
    rewrite H1, H2. by setoid_rewrite Hsame.
  - apply update_masked_reads_Ok in H1 as [Hdom _].
    apply update_masked_reads_Raise in H2 as [_ (k & Hk & Hnone)].
    rewrite Forall_forall in Hdom.
    apply Hsame, Hdom, elem_of_dom in Hk as [s Hs]. congruence.
  - apply update_masked_reads_Ok in H2 as [Hdom _].
    apply update_masked_reads_Raise in H1 as [_ (k & Hk & Hnone)].
    rewrite Forall_forall in Hdom.
    apply Hsame, Hdom, elem_of_dom in Hk as [s Hs]. congruence.
  - apply update_masked_reads_Raise in H1 as [-> _].
    by apply update_masked_reads_Raise in H2 as [-> _].
Qed.

Lemma apply_filter_same_categories_witness :
  apply_filter two_reads two_categories (Some [1; 2])
  = apply_filter two_reads two_categories (Some [2; 1; 1]).
Proof.
  apply apply_filter_same_categories; [discriminate..|].
  intros k. rewrite !elem_of_cons, !elem_of_nil. tauto.
Defined.

(** X3: filtering in two passes is filtering once with both lists: a run
    with [S2] on the output of a run with [S1] gives what one run with
    [S1 ++ S2] gives, including the [KeyError] of a category of [S2] that
    is missing. *)
Theorem apply_filter_compose (F : string) (masked : gmap Z (gset string))
    (S1 S2 : list Z) (out : string) :
  S1 ≠ [] → S2 ≠ [] →
  apply_filter F masked (Some S1) = Ok out →
  apply_filter out masked (Some S2) = apply_filter F masked (Some (S1 ++ S2)).
Proof.
  intros HS1 HS2 (U1 & HU1 & ->)%apply_filter_Ok.
  rewrite filters_or_keys_nonempty in HU1 by done.
  unfold apply_filter.
  rewrite !filters_or_keys_nonempty by (try done; by destruct S1).
  rewrite update_masked_reads_app, HU1. simpl.
  rewrite (update_masked_reads_acc masked S2 U1).
  destruct (update_masked_reads masked S2 ∅) as [U2|e]; simpl; [|done].
  f_equal. rewrite lines_write_unmasked, !write_unmasked_join.
  by rewrite unmasked_union.
Qed.

Lemma apply_filter_compose_witness :
  apply_filter (tsv [["r2"; "y"]]) two_categories (Some [2])
  = apply_filter two_reads two_categories (Some ([1] ++ [2])).
Proof.
  apply apply_filter_compose; [discriminate..|]. vm_compute. reflexivity.
Defined.

(** X4: when no line of the file has its read id in a set of [masked], the
    output is the input, byte for byte, whatever [filters] is. *)
Theorem apply_filter_nothing_masked (F : string) (masked : gmap Z (gset string))
    (filters : option (list Z)) (out : string) :
  apply_filter F masked filters = Ok out →
  Forall (λ line, map_Forall (λ _ s, Py.first_field line ∉ s) masked)
         (Py.lines F) →
  out = F.
Proof.
  intros (U & HU & ->)%apply_filter_Ok Hnone.
  apply update_masked_reads_Ok in HU as [_ HU].
  rewrite write_unmasked_join, unmasked_all; [apply join_lines|].
  eapply Forall_impl; [exact Hnone|]. simpl.
  intros line Hline [?|(k & s & _ & Hk & Hs)]%HU; [done|].
  by apply (Hline k s).
Qed.

Lemma apply_filter_nothing_masked_witness :
  apply_filter other_reads two_categories (Some [2]) = Ok other_reads.
Proof.
  destruct (apply_filter other_reads two_categories (Some [2])) as [out|e] eqn:Hrun;
    [|by vm_compute in Hrun].
  f_equal. apply (apply_filter_nothing_masked _ _ _ _ Hrun). by_compute.
Defined.

(** * More on [filter_reads] *)

Section Flags.

Context (P : params) (frag_count : gmap (string * Z) Z) (cut : Z).

Lemma reads_of_masked_init c : reads_of masked_init c = ∅.
Proof.
  unfold reads_of, masked_init. simpl.
  repeat (rewrite lookup_insert; case_decide; [done|]).
  by rewrite lookup_empty.
Qed.

(** [add_read] leaves the names alone. *)
Lemma name_add_read c read (m : gmap Z entry) :
  name <$> add_read c read m = name <$> m.
Proof.
  apply map_eq. intros k. unfold add_read. rewrite !lookup_fmap.
  destruct (decide (c = k)) as [->|Hne].
  - rewrite lookup_alter_eq. by destruct (m !! k).
  - by rewrite lookup_alter_ne.
Qed.

(** What is true of [masked] and kept by [add_read] is true after the loop. *)
Lemma process_lines_masked_ind (Φ : gmap Z entry → Prop) st lines st' :
  (∀ c read m, Φ m → Φ (add_read c read m)) →
  process_lines P frag_count cut st lines = Ok st' →
  Φ (masked st) → Φ (masked st').
Proof.
  intros Hadd. revert st. induction lines as [|line lines IH]; intros st; simpl.
  - by intros [= <-].
  - destruct (process_line P frag_count cut st line) as [st1|] eqn:Hl; [|done].
    simpl. intros Hrun HΦ. apply (IH st1 Hrun).
    apply process_line_Ok in Hl as [_ Hm].
    assert (Φ (masked (check_uniq (read_of line) (uniq_key_of line) st))) as Hu.
    { unfold check_uniq. destruct (uniq_check st !! uniq_key_of line); simpl; [|done].
      case_decide; auto. }
    destruct Hm as [->|(c & _ & ->)]; auto.
Qed.

(** Only a pair on one chromosome is flagged by a rule on geometry. *)
Lemma classify_flags read cr1 cr2 ps1 ps2 sd1 sd2 re1 rs1 re2 rs2 m :
  let m' := classify P frag_count cut read cr1 cr2
              ps1 ps2 sd1 sd2 re1 rs1 re2 rs2 m in
  m' = m ∨ (cr1 = cr2 ∧ ∃ c, c ∈ geometry ∧ m' = add_read c read m).
Proof.
  simpl. destruct (decide (cr1 = cr2)) as [Heq|Hne].
  - destruct (classify_cases P frag_count cut read cr1 cr2
                ps1 ps2 sd1 sd2 re1 rs1 re2 rs2 m) as [?|?];
      [by left|right; by split].
  - left. unfold classify. by rewrite decide_True.
Qed.

Lemma process_line_flags st line st' :
  process_line P frag_count cut st line = Ok st' →
  let st1 := check_uniq (read_of line) (uniq_key_of line) st in
  masked st' = masked st1
  ∨ (same_chromosome line
     ∧ ∃ c, c ∈ geometry ∧ masked st' = add_read c (read_of line) (masked st1)).
Proof.
  intros H.
  assert (Hp : parses P frag_count cut st line) by (by exists st').
  apply process_line_parses in Hp
    as (read & cr1 & ps1 & sd1 & x1 & rs1 & re1 & cr2 & ps2 & sd2 & x2
        & rs2 & re2 & Hsplit & Hints).
  unfold process_line, read_of, uniq_key_of, same_chromosome in *.
  rewrite Hsplit in *.
  repeat match goal with
         | Hf : Forall _ (_ :: _) |- _ =>
             let Hi := fresh "Hi" in
             apply Forall_cons in Hf as [[? Hi] Hf]; rewrite Hi in H
         end.
  simpl in H. injection H as <-. simpl. apply classify_flags.
Qed.

Lemma intra_inv_step seen st line st' :
  process_line P frag_count cut st line = Ok st' →
  intra_inv seen (masked st) → intra_inv (seen ++ [line]) (masked st').
Proof.
  intros Hm%process_line_flags Hinv c id Hc Hid.
  pose proof (check_uniq_cases (read_of line) (uniq_key_of line) st)
    as (_ & Hsame & _).
  specialize (Hsame c (geometry_not_5 c Hc)).
  assert (Hold : id ∈ reads_of (masked st) c →
                 ∃ l, l ∈ seen ++ [line] ∧ read_of l = id ∧ same_chromosome l).
  { intros (l & Hl & ? & ?)%(Hinv c id Hc). exists l.
    split; [|done]. apply elem_of_app. by left. }
  destruct Hm as [Hm|(Hchr & c0 & _ & Hm)]; rewrite Hm in Hid.
  - apply Hold. by rewrite <- Hsame.
  - apply reads_of_add_read_bound, elem_of_union in Hid as [Hid|Hid].
    + apply Hold. by rewrite <- Hsame.
    + apply elem_of_singleton in Hid as ->. exists line.
      split; [|done]. apply elem_of_app. right. by left.
Qed.

Lemma intra_inv_lines seen st lines st' :
  process_lines P frag_count cut st lines = Ok st' →
  intra_inv seen (masked st) → intra_inv (seen ++ lines) (masked st').
Proof.
  revert seen st. induction lines as [|line lines IH]; intros seen st; simpl.
  - intros [= <-] Hinv. by rewrite (right_id_L [] (++)).
  - destruct (process_line P frag_count cut st line) as [st1|] eqn:Hl; [|done].
    simpl. intros Hrun Hinv. rewrite cons_middle, (assoc_L (++)).
    apply (IH _ st1 Hrun). by eapply intra_inv_step.
Qed.

Lemma check_uniq_bound read key st id :
  id ∈ reads_of (masked (check_uniq read key st)) 5 →
  id ∈ reads_of (masked st) 5
  ∨ ∃ first, uniq_check st !! key = Some first ∧ (id = read ∨ id = first).
Proof.
  unfold check_uniq. destruct (uniq_check st !! key) as [first|]; simpl; [|by left].
  case_decide; intros Hid.
  - apply reads_of_add_read_bound, elem_of_union in Hid as [Hid|Hid].
    + apply reads_of_add_read_bound, elem_of_union in Hid as [Hid|Hid]; [by left|].
      apply elem_of_singleton in Hid as ->. right. exists first. auto.
    + apply elem_of_singleton in Hid as ->. right. exists first. auto.
  - apply reads_of_add_read_bound, elem_of_union in Hid as [Hid|Hid]; [by left|].
    apply elem_of_singleton in Hid as ->. right. exists first. auto.
Qed.

Lemma dup_sound_init : dup_sound [] start_state.
Proof.
  split.
  - intros key first. simpl. by rewrite lookup_empty.
  - intros id. simpl. by rewrite reads_of_masked_init.
Qed.

Lemma dup_sound_check_uniq hist read key st :
  dup_sound hist st → dup_sound (hist ++ [(key, read)]) (check_uniq read key st).
Proof.
  intros [Hrec Hflag]. split.
  - intros key' f. unfold check_uniq.
    destruct (uniq_check st !! key) as [first|] eqn:Hkey; simpl.
    + intros (i & Hi)%Hrec. exists i. apply lookup_app_l_Some, Hi.
    + destruct (decide (key' = key)) as [->|Hne].
      * rewrite lookup_insert_eq. intros [= <-]. exists (length hist).
        apply lookup_snoc_Some. by right.
      * rewrite lookup_insert_ne by done.
        intros (i & Hi)%Hrec. exists i. apply lookup_app_l_Some, Hi.
  - intros id [Hold|(first & Hkey & Hid)]%check_uniq_bound.
    + destruct (Hflag id Hold) as (i & j & k & o & Hne & Hi & Hj).
      exists i, j, k, o. split; [done|].
      split; by apply lookup_app_l_Some.
    + destruct (Hrec key first Hkey) as [i0 Hi0].
      pose proof (lookup_lt_Some _ _ _ Hi0) as Hlt.
      destruct Hid as [->| ->].
      * exists (length hist), i0, key, first. split; [lia|]. split.
        -- apply lookup_snoc_Some. by right.
        -- by apply lookup_app_l_Some.
      * exists i0, (length hist), key, read. split; [lia|]. split.
        -- by apply lookup_app_l_Some.
        -- apply lookup_snoc_Some. by right.
Qed.

Lemma dup_sound_step hist st line st' :
  process_line P frag_count cut st line = Ok st' →
  dup_sound hist st → dup_sound (hist ++ [key_and_read line]) st'.
Proof.
  intros [Hu Hm]%process_line_Ok Hinv.
  pose proof (dup_sound_check_uniq hist (read_of line) (uniq_key_of line) st Hinv)
    as [Hrec Hflag].
  split.
  - intros key first. rewrite Hu. apply Hrec.
  - intros id Hid. apply Hflag.
    destruct Hm as [Hm|(c & Hc%geometry_not_5 & Hm)]; rewrite Hm in Hid; [done|].
    by rewrite reads_of_add_read_ne in Hid.
Qed.

Lemma dup_sound_lines hist st lines st' :
  process_lines P frag_count cut st lines = Ok st' →
  dup_sound hist st → dup_sound (hist ++ (key_and_read <$> lines)) st'.
Proof.
  revert hist st. induction lines as [|line lines IH]; intros hist st; simpl.
  - intros [= <-] Hinv. by rewrite (right_id_L [] (++)).
  - destruct (process_line P frag_count cut st line) as [st1|] eqn:Hl; [|done].
    simpl. intros Hrun Hinv. rewrite cons_middle, (assoc_L (++)).
    apply (IH _ st1 Hrun). by eapply dup_sound_step.
Qed.

(** Two lines with one key leave both reads in category 5; a read of
    category 5 is of a line whose key another line has. *)
Lemma same_key_flagged st lines i j la lb :
  process_lines P frag_count cut start_state lines = Ok st →
  lines !! i = Some la → lines !! j = Some lb → i ≠ j →
  uniq_key_of la = uniq_key_of lb →
  read_of la ∈ reads_of (masked st) 5.
Proof.
  intros Hrun Hi Hj Hne Hkey.
  pose proof (dup_inv_lines P frag_count cut [] start_state lines st
                Hrun category_5 dup_inv_init) as Hinv.
  rewrite (left_id_L [] (++)) in Hinv.
  assert (Hhi : (key_and_read <$> lines) !! i = Some (uniq_key_of la, read_of la)).
  { by rewrite list_lookup_fmap, Hi. }
  assert (Hhj : (key_and_read <$> lines) !! j = Some (uniq_key_of la, read_of lb)).
  { rewrite list_lookup_fmap, Hj. unfold key_and_read. simpl. by rewrite Hkey. }
  destruct (Hinv (uniq_key_of la)) as [[_ Hnew]|[(f & i0 & _ & Hone)|[_ Hall]]].
  - by destruct (Hnew i (read_of la)).
  - destruct (Hone _ _ Hhi) as [-> _], (Hone _ _ Hhj) as [-> _]. done.
  - by apply (Hall i).
Qed.

Lemma flagged_same_key st lines id :
  process_lines P frag_count cut start_state lines = Ok st →
  id ∈ reads_of (masked st) 5 →
  ∃ i j la lb,
    i ≠ j ∧ lines !! i = Some la ∧ lines !! j = Some lb
    ∧ uniq_key_of la = uniq_key_of lb ∧ read_of la = id.
Proof.
  intros Hrun Hid.
  pose proof (dup_sound_lines [] start_state lines st Hrun dup_sound_init)
    as [_ Hflag].
  rewrite (left_id_L [] (++)) in Hflag.
  destruct (Hflag id Hid) as (i & j & key & other & Hne & Hi & Hj).
  apply list_lookup_fmap_Some in Hi as (la & Hla & Hka).
  apply list_lookup_fmap_Some in Hj as (lb & Hlb & Hkb).
  exists i, j, la, lb. unfold key_and_read in *.
  repeat split; [done..| |]; congruence.
Qed.

End Flags.

(** X5: the dictionary returned has the nine categories, each with the name
    it was created with. *)
Theorem filter_reads_categories (rnd : Q → Q) (frag_count : gmap (string * Z) Z)
    (F : string) (P : params) (m : gmap Z entry) :
  filter_reads rnd frag_count F P = Ok m →
  name <$> m = name <$> masked_init
  ∧ dom m = list_to_set [1; 2; 3; 4; 5; 6; 7; 8; 9].
Proof.
  intros (cut & st & _ & Hrun & ->)%filter_reads_Ok.
  assert (Hnames : name <$> masked st = name <$> masked_init).
  { apply (process_lines_masked_ind P frag_count cut
             (λ m, name <$> m = name <$> masked_init)
             start_state (Py.lines F) st); [|done..].
    intros c read m0 Hm0. by rewrite name_add_read. }
  split; [done|].
  rewrite <- dom_masked_init, <- (dom_fmap_L name (masked st)), Hnames.
  apply dom_fmap_L.
Qed.

Lemma filter_reads_categories_witness :
  ∃ m, filter_reads exact two_fragments three_pairs half_params = Ok m
       ∧ name <$> m = name <$> masked_init
       ∧ dom m = list_to_set [1; 2; 3; 4; 5; 6; 7; 8; 9].
Proof.
  eexists. split; [vm_compute; reflexivity|].
  apply (filter_reads_categories exact two_fragments three_pairs half_params).
  vm_compute. reflexivity.
Defined.

(** X6: a read id in one of the categories 1, 2, 3, 4, 6, 7, 8, 9 is the
    read id of a line of the file whose two chromosomes are equal: a pair on
    two chromosomes is flagged by no rule on geometry. *)
Theorem geometry_same_chromosome (rnd : Q → Q)
    (frag_count : gmap (string * Z) Z) (F : string) (P : params)
    (m : gmap Z entry) (c : Z) (id : string) :
  filter_reads rnd frag_count F P = Ok m →
  c ∈ geometry → id ∈ reads_of m c →
  ∃ line, line ∈ Py.lines F ∧ read_of line = id ∧ same_chromosome line.
Proof.
  intros (cut & st & _ & Hrun & ->)%filter_reads_Ok Hc Hid.
  apply (intra_inv_lines P frag_count cut [] start_state (Py.lines F) st Hrun)
    with (c := c); [|done..].
  intros c' id' _. simpl. by rewrite reads_of_masked_init.
Qed.

Lemma geometry_same_chromosome_witness :
  ∃ line, line ∈ Py.lines three_pairs ∧ read_of line = "r1"
          ∧ same_chromosome line.
Proof.
  assert (∃ m, filter_reads exact two_fragments three_pairs half_params = Ok m
               ∧ "r1" ∈ reads_of m 1) as (m & Hrun & Hid).
  { eexists. split; [vm_compute; reflexivity|by_compute]. }
  apply (geometry_same_chromosome exact two_fragments three_pairs half_params
           m 1 "r1" Hrun); [by_compute|done].
Defined.

(** X7: category 5 is exactly the set of the read ids of the lines whose key
    is the key of another line of the file. *)
Theorem duplicates_exact (rnd : Q → Q) (frag_count : gmap (string * Z) Z)
    (F : string) (P : params) (m : gmap Z entry) (id : string) :
  filter_reads rnd frag_count F P = Ok m →
  id ∈ reads_of m 5
  ↔ ∃ i j la lb,
      i ≠ j ∧ Py.lines F !! i = Some la ∧ Py.lines F !! j = Some lb
      ∧ uniq_key_of la = uniq_key_of lb ∧ read_of la = id.
Proof.
  intros (cut & st & _ & Hrun & ->)%filter_reads_Ok. split.
  - intros Hid. by eapply flagged_same_key.
  - intros (i & j & la & lb & Hne & Hi & Hj & Hkey & <-).
    by eapply same_key_flagged.
Qed.

Lemma duplicates_exact_witness :
  ∃ m, filter_reads exact two_fragments three_pairs half_params = Ok m
       ∧ ("r1" ∈ reads_of m 5
          ↔ ∃ i j la lb,
              i ≠ j ∧ Py.lines three_pairs !! i = Some la
              ∧ Py.lines three_pairs !! j = Some lb
              ∧ uniq_key_of la = uniq_key_of lb ∧ read_of la = "r1").
Proof.
  eexists. split; [vm_compute; reflexivity|].
  apply (duplicates_exact exact two_fragments three_pairs half_params).
  vm_compute. reflexivity.
Defined.

Lemma index_elem_of l i x : Py.index l i = Ok x → x ∈ l.
Proof.
  unfold Py.index. destruct (_ && _); [|done].
  destruct (l !! _) as [y|] eqn:Hy; [|done].
  intros [= <-]. by eapply list_elem_of_lookup_2.
Qed.

(** X8: a threshold that is computed is the count of a fragment of the
    table, whatever the rounding and the fraction are. *)
Theorem threshold_in_table (rnd : Q → Q) (frag_count : gmap (string * Z) Z)
    (p : Q) (cut : Z) :
  threshold rnd frag_count p = Ok cut → ∃ crm, frag_count !! crm = Some cut.
Proof.
  unfold threshold. intros H%index_elem_of.
  unfold Py.sorted in H. rewrite merge_sort_Permutation in H.
  apply list_elem_of_fmap in H as ([crm v] & -> & Hkv).
  exists crm. by apply elem_of_map_to_list.
Qed.

Lemma threshold_in_table_witness : ∃ crm, two_fragments !! crm = Some 7.
Proof.
  apply (threshold_in_table exact two_fragments (1 # 2)). vm_compute. reflexivity.
Defined.

Section Rerun.

Lemma filter_reads_dom rnd frag_count F P m :
  filter_reads rnd frag_count F P = Ok m → dom m = dom masked_init.
Proof.
  intros (cut & st & _ & Hrun & ->)%filter_reads_Ok.
  by apply masked_keys in Hrun.
Qed.

(** Two places of a filtered list are two places of the list, in order. *)
Lemma filter_lookup_pair {A} (Q : A → Prop) `{!∀ x, Decision (Q x)}
    (l : list A) (i j : nat) (a b : A) :
  (i < j)%nat → filter Q l !! i = Some a → filter Q l !! j = Some b →
  ∃ i' j', (i' < j')%nat ∧ l !! i' = Some a ∧ l !! j' = Some b ∧ Q a.
Proof.
  revert i j. induction l as [|x l IH]; intros i j; [done|].
  rewrite filter_cons. destruct (decide (Q x)) as [Hx|Hx].
  - destruct i as [|i], j as [|j]; simpl; try lia.
    + intros _ [= <-] Hb.
      apply list_elem_of_lookup_2, list_elem_of_filter in Hb as [_ Hb].
      apply list_elem_of_lookup_1 in Hb as [k Hk].
      exists 0%nat, (S k). repeat split; [lia|done..].
    + intros Hlt Ha Hb.
      destruct (IH i j) as (i' & j' & ? & ? & ? & ?); [lia|done..|].
      exists (S i'), (S j'). repeat split; [lia|done..].
  - intros Hlt Ha Hb.
    destruct (IH i j) as (i' & j' & ? & ? & ? & ?); [done..|].
    exists (S i'), (S j'). repeat split; [lia|done..].
Qed.

Lemma trunc_proper x y : (x == y)%Q → Py.trunc x = Py.trunc y.
Proof.
  intros Hxy. unfold Py.trunc.
  rewrite (Qfloor_comp x y Hxy), (Qceiling_comp x y Hxy).
  assert (Qle_bool 0 x = Qle_bool 0 y) as ->; [|done].
  apply eq_true_iff_eq. rewrite !Qle_bool_iff. by rewrite Hxy.
Qed.

End Rerun.

(** X9: with no over-represented fragment asked for ([over_represented = 0])
    the threshold raises [IndexError] under any rounding that depends on the
    value only and is exact on 1, on the number [n] of fragments and on
    [n + 1/2], as binary64 is for every [n] below 2^52. *)
Theorem threshold_zero_fraction (rnd : Q → Q) (frag_count : gmap (string * Z) Z) :
  (∀ x y, x == y → rnd x == rnd y)%Q →
  (rnd 1 == 1)%Q →
  (rnd (inject_Z (Z.of_nat (size frag_count)))
   == inject_Z (Z.of_nat (size frag_count)))%Q →
  (rnd (inject_Z (Z.of_nat (size frag_count)) + (1 # 2))
   == inject_Z (Z.of_nat (size frag_count)) + (1 # 2))%Q →
  threshold rnd frag_count 0 = Raise IndexError.
Proof.
  intros Hproper H1 Hn Hhalf. unfold threshold.
  set (n := Z.of_nat (size frag_count)) in *.
  assert (Hcut : cut_index rnd 0 n = n).
  { unfold cut_index.
    assert (rnd (1 - 0) == 1)%Q as Ha.
    { rewrite <- H1 at 2. apply Hproper. lra. }
    assert (rnd (rnd (1 - 0) * rnd (inject_Z n)) == inject_Z n)%Q as Hb.
    { rewrite <- Hn at 2. apply Hproper. rewrite Ha, Hn. lra. }
    assert (rnd (rnd (rnd (1 - 0) * rnd (inject_Z n)) + (1 # 2))
            == inject_Z n + (1 # 2))%Q as Hc.
    { rewrite <- Hhalf. apply Hproper. by rewrite Hb. }
    rewrite (trunc_proper _ _ Hc), trunc_nonneg, floor_half; [done|].
    pose proof (inject_Z_nonneg n ltac:(lia)). lra. }
  rewrite Hcut. unfold n.
  rewrite <- (sorted_values_length frag_count). apply index_length.
Qed.

Lemma threshold_zero_fraction_witness :
  threshold exact one_fragment 0 = Raise IndexError.
Proof. by apply threshold_zero_fraction. Defined.

(** X10: given the dictionary that [filter_reads] returns as it is, whose
    values are dictionaries and not sets, [apply_filter] collects the keys
    ['name'] and ['reads'] of those values: it removes the lines whose read
    id is [name] or [reads], and no line for being flagged. *)
Theorem apply_filter_on_entries (rnd : Q → Q) (frag_count : gmap (string * Z) Z)
    (F : string) (P : params) (m : gmap Z entry) (filters : option (list Z))
    (out : string) :
  filter_reads rnd frag_count F P = Ok m →
  apply_filter_values F (Entry <$> m) filters = Ok out →
  Py.lines out = unmasked {[ "name"; "reads" ]} (Py.lines F).
Proof.
  intros Hdom%filter_reads_dom (U & HU & ->)%apply_filter_Ok.
  rewrite lines_write_unmasked. f_equal.
  apply update_masked_reads_Ok in HU as [Hkeys HU].
  assert (Hlookup : ∀ k s, (iterate <$> (Entry <$> m)) !! k = Some s →
                           s = {[ "name"; "reads" ]}).
  { intros k s. rewrite !lookup_fmap. destruct (m !! k); simpl; [|done].
    by intros [= <-]. }
  apply set_eq. intros id. rewrite HU. split.
  - intros [?|(k & s & _ & Hk%Hlookup & Hid)]; [done|]. by subst s.
  - intros Hid. right.
    assert (∃ k, k ∈ filters_or_keys (iterate <$> (Entry <$> m)) filters)
      as [k Hk].
    { destruct filters as [[|k S]|]; simpl; [|exists k; by left|];
        exists 5; apply elem_of_keys; rewrite !dom_fmap_L, Hdom;
        apply category_5. }
    rewrite Forall_forall in Hkeys.
    pose proof (Hkeys k Hk) as [s Hs]%elem_of_dom.
    exists k, s. split; [done|]. split; [done|].
    by rewrite (Hlookup k s Hs).
Qed.

Lemma apply_filter_on_entries_witness :
  ∃ m out,
    filter_reads exact two_fragments three_pairs half_params = Ok m
    ∧ apply_filter_values three_pairs (Entry <$> m) None = Ok out
    ∧ Py.lines out = unmasked {[ "name"; "reads" ]} (Py.lines three_pairs).
Proof.
  do 2 eexists. split; [vm_compute; reflexivity|].
  split; [vm_compute; reflexivity|].
  eapply (apply_filter_on_entries exact two_fragments three_pairs half_params
            _ None); vm_compute; reflexivity.
Defined.

(** X11: removing the duplicates removes them all.  When the read id of
    every line is its first tab-delimited field, the file that [apply_filter]
    writes for category 5 of a classification has no duplicate left: a
    second classification of it, with any table and arguments, returns an
    empty category 5. *)
Theorem duplicates_removed (rnd rnd' : Q → Q)
    (frag_count frag_count' : gmap (string * Z) Z) (F out : string)
    (P P' : params) (m m' : gmap Z entry) :
  filter_reads rnd frag_count F P = Ok m →
  Forall (λ line, Py.first_field line = read_of line) (Py.lines F) →
  apply_filter F (read_sets m) (Some [5]) = Ok out →
  filter_reads rnd' frag_count' out P' = Ok m' →
  reads_of m' 5 = ∅.
Proof.
  intros (cut & st & _ & Hrun & ->)%filter_reads_Ok Hids
         (U & HU & ->)%apply_filter_Ok
         (cut' & st' & _ & Hrun' & ->)%filter_reads_Ok.
  rewrite lines_write_unmasked in Hrun'.
  assert (HU5 : U = reads_of (masked st) 5).
  { simpl in HU. unfold read_sets in HU. rewrite lookup_fmap in HU.
    unfold reads_of. destruct (masked st !! 5); simpl in *; [|done].
    injection HU as <-. by rewrite (left_id_L ∅ (∪)). }
  subst U. apply elem_of_equiv_empty_L. intros id Hid.
  destruct (flagged_same_key P' frag_count' cut' st' _ id Hrun' Hid)
    as (i & j & la & lb & Hne & Hi & Hj & Hkey & _).
  unfold unmasked in Hi, Hj.
  assert (∃ i' j', i' ≠ j' ∧ Py.lines F !! i' = Some la
                   ∧ Py.lines F !! j' = Some lb
                   ∧ Py.first_field la ∉ reads_of (masked st) 5)
    as (i' & j' & Hne' & Hi' & Hj' & Hla).
  { destruct (Nat.lt_total i j) as [Hlt|[?|Hlt]]; [|done|].
    - destruct (filter_lookup_pair _ _ _ _ _ _ Hlt Hi Hj)
        as (i' & j' & ? & ? & ? & ?).
      exists i', j'. repeat split; [lia|done..].
    - destruct (filter_lookup_pair _ _ _ _ _ _ Hlt Hj Hi)
        as (j' & i' & ? & ? & ? & ?).
      pose proof (list_elem_of_lookup_2 _ _ _ Hi) as [Hla _]%list_elem_of_filter.
      exists i', j'. repeat split; [lia|done..]. }
  apply Hla. rewrite Forall_forall in Hids.
  rewrite (Hids la) by (by eapply list_elem_of_lookup_2).
  by eapply same_key_flagged.
Qed.

Lemma duplicates_removed_witness :
  ∃ m out m',
    filter_reads exact two_fragments three_pairs half_params = Ok m
    ∧ apply_filter three_pairs (read_sets m) (Some [5]) = Ok out
    ∧ filter_reads exact two_fragments out half_params = Ok m'
    ∧ reads_of m' 5 = ∅.
Proof.
  do 3 eexists. split; [vm_compute; reflexivity|].
  split; [vm_compute; reflexivity|]. split; [vm_compute; reflexivity|].
  eapply (duplicates_removed exact exact two_fragments two_fragments three_pairs
            _ half_params half_params).
  - vm_compute. reflexivity.
  - by_compute.
  - vm_compute. reflexivity.
  - vm_compute. reflexivity.
Defined.

(** * [is_asymmetric_dico] and [symmetrize_dico] *)

Section Symmetry.

Context (ncol : nat).

Implicit Types (hic : gmap nat Z) (i j a b p : nat).

Lemma key_inj a b i j :
  (b < ncol)%nat → (j < ncol)%nat →
  (a * ncol + b)%nat = (i * ncol + j)%nat → a = i ∧ b = j.
Proof.
  intros Hb Hj Heq.
  assert (Hdiv : ((a * ncol + b) / ncol = (i * ncol + j) / ncol)%nat)
    by (by rewrite Heq).
  rewrite !Nat.div_add_l, !Nat.div_small, !Nat.add_0_r in Hdiv by lia.
  subst a. split; [done|lia].
Qed.

Lemma get_insert hic p v : HiC.get (<[p := v]> hic) p = v.
Proof. unfold HiC.get. by rewrite lookup_insert_eq. Qed.

Lemma get_insert_ne hic p q v : p ≠ q → HiC.get (<[p := v]> hic) q = HiC.get hic q.
Proof. intros Hne. unfold HiC.get. by rewrite lookup_insert_ne. Qed.

(** One turn of the inner loop writes to the two keys of its pair only. *)
Lemma symmetrize_cell_other hic i j p :
  p ≠ (i * ncol + j)%nat → p ≠ (j * ncol + i)%nat →
  HiC.symmetrize_cell ncol hic i j !! p = hic !! p.
Proof.
  intros H1 H2. unfold HiC.symmetrize_cell. simpl. case_decide; [|done].
  by rewrite !lookup_insert_ne.
Qed.

Lemma symmetrize_cell_sum hic i j :
  0 ≤ HiC.cell ncol hic i j → 0 ≤ HiC.cell ncol hic j i →
  HiC.cell ncol (HiC.symmetrize_cell ncol hic i j) i j
  = HiC.cell ncol hic i j + HiC.cell ncol hic j i
  ∧ HiC.cell ncol (HiC.symmetrize_cell ncol hic i j) j i
    = HiC.cell ncol hic i j + HiC.cell ncol hic j i.
Proof.
  unfold HiC.cell, HiC.symmetrize_cell. simpl. intros H1 H2.
  case_decide as Hval.
  - split; [|apply get_insert].
    destruct (decide ((j * ncol + i)%nat = (i * ncol + j)%nat)) as [->|Hne].
    + apply get_insert.
    + rewrite get_insert_ne by done. apply get_insert.
  - lia.
Qed.

Lemma symmetrize_cell_nonneg hic i j :
  (∀ p, 0 ≤ HiC.get hic p) → ∀ p, 0 ≤ HiC.get (HiC.symmetrize_cell ncol hic i j) p.
Proof.
  intros Hpos p.
  destruct (symmetrize_cell_sum hic i j) as [H1 H2]; [apply Hpos..|].
  unfold HiC.cell in *.
  destruct (decide (p = (i * ncol + j)%nat)) as [->|Hp1].
  { rewrite H1. pose proof (Hpos (i * ncol + j)%nat).
    pose proof (Hpos (j * ncol + i)%nat). lia. }
  destruct (decide (p = (j * ncol + i)%nat)) as [->|Hp2].
  { rewrite H2. pose proof (Hpos (i * ncol + j)%nat).
    pose proof (Hpos (j * ncol + i)%nat). lia. }
  unfold HiC.get. rewrite symmetrize_cell_other by done. apply Hpos.
Qed.

(** The two loops as one loop over the pairs. *)
Lemma symmetrize_dico_pairs hic :
  HiC.symmetrize_dico ncol hic
  = foldl (λ h q, HiC.symmetrize_cell ncol h q.1 q.2) hic (HiC.pairs ncol).
Proof.
  unfold HiC.symmetrize_dico, HiC.pairs.
  generalize (HiC.range 0 ncol). intros l. revert hic.
  induction l as [|i l IH]; intros hic; [done|].
  rewrite bind_cons, foldl_app, foldl_fmap. simpl. apply IH.
Qed.

Lemma elem_of_pairs a b : (a, b) ∈ HiC.pairs ncol ↔ (a ≤ b < ncol)%nat.
Proof.
  unfold HiC.pairs, HiC.range. rewrite list_elem_of_bind. split.
  - intros (i & (j & [= -> ->] & Hj%elem_of_seq)%list_elem_of_fmap & Hi%elem_of_seq).
    lia.
  - intros Hab. exists a. split.
    + apply list_elem_of_fmap. exists b. split; [done|]. apply elem_of_seq. lia.
    + apply elem_of_seq. lia.
Qed.

Lemma NoDup_pairs : NoDup (HiC.pairs ncol).
Proof.
  unfold HiC.pairs. apply NoDup_bind.
  - intros i1 i2 [a b] _ _ (j1 & [= -> ->] & _)%list_elem_of_fmap
           (j2 & [= -> _] & _)%list_elem_of_fmap. done.
  - intros i _. apply NoDup_fmap_2_strong; [|apply NoDup_seq].
    by intros j1 j2 _ _ [= ->].
  - apply NoDup_seq.
Qed.

Lemma fold_pairs_other ps hic p :
  Forall (λ q, p ≠ (q.1 * ncol + q.2)%nat ∧ p ≠ (q.2 * ncol + q.1)%nat) ps →
  foldl (λ h q, HiC.symmetrize_cell ncol h q.1 q.2) hic ps !! p = hic !! p.
Proof.
  intros Hps. revert hic. induction Hps as [|q ps [H1 H2] _ IH]; intros hic; [done|].
  simpl. rewrite IH. by apply symmetrize_cell_other.
Qed.

Lemma fold_pairs_nonneg ps hic :
  (∀ p, 0 ≤ HiC.get hic p) →
  ∀ p, 0 ≤ HiC.get (foldl (λ h q, HiC.symmetrize_cell ncol h q.1 q.2) hic ps) p.
Proof.
  revert hic. induction ps as [|q ps IH]; intros hic Hpos; [done|].
  simpl. apply IH. by apply symmetrize_cell_nonneg.
Qed.

(** A pair of the list leaves the sum of its two cells in both. *)
Lemma fold_pairs_sum ps hic a b :
  (a < ncol)%nat → (b < ncol)%nat →
  Forall (λ q, (q.1 ≤ q.2 < ncol)%nat) ps → NoDup ps →
  (∀ p, 0 ≤ HiC.get hic p) →
  (a, b) ∈ ps ∨ (b, a) ∈ ps →
  HiC.cell ncol (foldl (λ h q, HiC.symmetrize_cell ncol h q.1 q.2) hic ps) a b
  = HiC.cell ncol hic a b + HiC.cell ncol hic b a.
Proof.
  intros Ha Hb Hps Hnodup. revert hic.
  induction Hps as [|[i j] ps Hij Hps IH]; intros hic Hpos Hin.
  { destruct Hin as [Hin|Hin]; by apply elem_of_nil in Hin. }
  apply NoDup_cons in Hnodup as [Hnew Hnodup]. simpl in Hij. simpl.
  destruct (decide ((a, b) = (i, j) ∨ (a, b) = (j, i))) as [Hhit|Hmiss].
  - assert (Hout : Forall (λ q, (a * ncol + b)%nat ≠ (q.1 * ncol + q.2)%nat
                                ∧ (a * ncol + b)%nat ≠ (q.2 * ncol + q.1)%nat) ps).
    { rewrite Forall_forall in Hps |- *. intros [i' j'] Hq.
      specialize (Hps _ Hq). simpl in *.
      split; intros [-> ->]%key_inj; try lia.
      - destruct Hhit as [[= -> ->]|[= -> ->]]; [done|].
        assert (i = j) as -> by lia. done.
      - destruct Hhit as [[= -> ->]|[= -> ->]]; [|done].
        assert (i = j) as -> by lia. done. }
    unfold HiC.cell at 1. unfold HiC.get. rewrite fold_pairs_other by done.
    destruct (symmetrize_cell_sum hic i j) as [H1 H2]; [apply Hpos..|].
    unfold HiC.cell, HiC.get in *.
    destruct Hhit as [[= -> ->]|[= -> ->]]; [by rewrite H1|]. rewrite H2. lia.
  - rewrite IH; [| |by apply symmetrize_cell_nonneg|]; [|done|].
    + unfold HiC.cell, HiC.get. rewrite !symmetrize_cell_other; [done|..].
      * intros [-> ->]%key_inj; [|lia..]. apply Hmiss. by right.
      * intros [-> ->]%key_inj; [|lia..]. apply Hmiss. by left.
      * intros [-> ->]%key_inj; [|lia..]. apply Hmiss. by left.
      * intros [-> ->]%key_inj; [|lia..]. apply Hmiss. by right.
    + destruct Hin as [Hin|Hin]; apply elem_of_cons in Hin as [Heq|Hin];
        [|by left| |by right].
      * destruct Hmiss. by left.
      * destruct Hmiss. right. by injection Heq as -> ->.
Qed.

End Symmetry.

Section Symmetric.

Context (ncol : nat).

Implicit Types (hic : gmap nat Z).

Lemma existsb_false {A} (f : A → bool) (l : list A) :
  existsb f l = false ↔ ∀ x, x ∈ l → f x = false.
Proof.
  induction l as [|y l IH]; simpl.
  - split; [|done]. intros _ x Hx. by apply elem_of_nil in Hx.
  - rewrite orb_false_iff, IH. split.
    + intros [Hy Hl] x [->|Hx]%elem_of_cons; auto.
    + intros H. split; [apply H; by left|]. intros x Hx. apply H. by right.
Qed.

(** It is enough that the cells above the diagonal agree with those below. *)
Lemma is_asymmetric_dico_false hic :
  (∀ i j, (i ≤ j < ncol)%nat → HiC.cell ncol hic i j = HiC.cell ncol hic j i) →
  HiC.is_asymmetric_dico ncol hic = false.
Proof.
  intros H. unfold HiC.is_asymmetric_dico, HiC.range.
  apply existsb_false. intros i Hi%elem_of_seq.
  apply existsb_false. intros j Hj%elem_of_seq. simpl.
  apply negb_false_iff, Z.eqb_eq, H. lia.
Qed.

Lemma get_nonneg hic : map_Forall (λ _ v, 0 ≤ v) hic → ∀ p, 0 ≤ HiC.get hic p.
Proof.
  intros Hpos p. unfold HiC.get. destruct (hic !! p) as [v|] eqn:Hp; simpl; [|done].
  by apply (Hpos p v).
Qed.

Lemma symmetrize_dico_cell hic i j :
  (∀ p, 0 ≤ HiC.get hic p) → (i < ncol)%nat → (j < ncol)%nat →
  HiC.cell ncol (HiC.symmetrize_dico ncol hic) i j
  = HiC.cell ncol hic i j + HiC.cell ncol hic j i.
Proof.
  intros Hpos Hi Hj. rewrite symmetrize_dico_pairs.
  apply fold_pairs_sum; [done..| |apply NoDup_pairs|done|].
  - apply Forall_forall. intros [a b] Hab%elem_of_pairs. done.
  - rewrite !elem_of_pairs. lia.
Qed.

(** What one turn of the inner loop keeps, the two loops keep. *)
Lemma symmetrize_dico_ind (Φ : gmap nat Z → Prop) hic :
  (∀ h i j, Φ h → Φ (HiC.symmetrize_cell ncol h i j)) →
  Φ hic → Φ (HiC.symmetrize_dico ncol hic).
Proof.
  intros Hstep. rewrite symmetrize_dico_pairs. generalize (HiC.pairs ncol).
  intros ps. revert hic. induction ps as [|q ps IH]; intros hic Hhic; [done|].
  simpl. apply IH, Hstep, Hhic.
Qed.

End Symmetric.

(** X12: [is_asymmetric_dico] returns [False] exactly when the matrix is
    symmetric: every cell [(i, j)] of the [ncol] rows and columns has the
    value of cell [(j, i)], a missing cell counting as 0. *)
Theorem is_asymmetric_dico_symmetric (ncol : nat) (hic : gmap nat Z) :
  HiC.is_asymmetric_dico ncol hic = false
  ↔ ∀ i j, (i < ncol)%nat → (j < ncol)%nat →
           HiC.cell ncol hic i j = HiC.cell ncol hic j i.
Proof.
  split.
  - unfold HiC.is_asymmetric_dico, HiC.range. intros H.
    assert (Hle : ∀ i j, (i ≤ j < ncol)%nat →
                         HiC.cell ncol hic i j = HiC.cell ncol hic j i).
    { intros i j Hij. rewrite existsb_false in H.
      assert (Hi : i ∈ seq 0 (ncol - 0)) by (apply elem_of_seq; lia).
      specialize (H i Hi). rewrite existsb_false in H.
      assert (Hj : j ∈ seq i (ncol - i)) by (apply elem_of_seq; lia).
      specialize (H j Hj). simpl in H.
      by apply negb_false_iff, Z.eqb_eq in H. }
    intros i j Hi Hj. destruct (le_ge_dec i j).
    + apply Hle. lia.
    + symmetry. apply Hle. lia.
  - intros H. apply is_asymmetric_dico_false. intros i j Hij. apply H; lia.
Qed.

(** X13: on a dictionary of counts that are not negative, [symmetrize_dico]
    leaves in every cell [(i, j)] of the matrix the sum of the cells
    [(i, j)] and [(j, i)]; a cell of the diagonal is summed with itself and
    comes out doubled. *)
Theorem symmetrize_dico_sum (ncol : nat) (hic : gmap nat Z) (i j : nat) :
  map_Forall (λ _ v, 0 ≤ v) hic → (i < ncol)%nat → (j < ncol)%nat →
  HiC.cell ncol (HiC.symmetrize_dico ncol hic) i j
  = HiC.cell ncol hic i j + HiC.cell ncol hic j i
  ∧ HiC.cell ncol (HiC.symmetrize_dico ncol hic) i i
    = 2 * HiC.cell ncol hic i i.
Proof.
  intros Hpos Hi Hj. pose proof (get_nonneg hic Hpos) as Hget.
  rewrite !symmetrize_dico_cell by done. split; [done|lia].
Qed.

Lemma symmetrize_dico_sum_witness :
  HiC.cell 2 (HiC.symmetrize_dico 2 HiC.two_by_two) 0 1
  = HiC.cell 2 HiC.two_by_two 0 1 + HiC.cell 2 HiC.two_by_two 1 0
  ∧ HiC.cell 2 (HiC.symmetrize_dico 2 HiC.two_by_two) 0 0
    = 2 * HiC.cell 2 HiC.two_by_two 0 0.
Proof. apply symmetrize_dico_sum; [by_compute|lia..]. Defined.

(** X14: on counts that are not negative the result of [symmetrize_dico] is
    symmetric, and so is the dictionary that [optimal_reader] goes on with,
    which is the one it read when that was symmetric already. *)
Theorem symmetrize_dico_symmetric (ncol : nat) (hic : gmap nat Z) :
  map_Forall (λ _ v, 0 ≤ v) hic →
  HiC.is_asymmetric_dico ncol (HiC.symmetrize_dico ncol hic) = false
  ∧ HiC.is_asymmetric_dico ncol (HiC.make_symmetric ncol hic).2 = false
  ∧ ((HiC.make_symmetric ncol hic).1 = false
     → (HiC.make_symmetric ncol hic).2 = hic).
Proof.
  intros Hpos. pose proof (get_nonneg hic Hpos) as Hget.
  assert (Hsym : HiC.is_asymmetric_dico ncol (HiC.symmetrize_dico ncol hic) = false).
  { apply is_asymmetric_dico_false. intros i j Hij.
    rewrite !symmetrize_dico_cell by (done || lia). lia. }
  split; [done|]. unfold HiC.make_symmetric.
  destruct (HiC.is_asymmetric_dico ncol hic) eqn:Hasym; simpl; by split.
Qed.

Lemma symmetrize_dico_symmetric_witness :
  HiC.is_asymmetric_dico 2 (HiC.symmetrize_dico 2 HiC.two_by_two) = false
  ∧ HiC.is_asymmetric_dico 2 (HiC.make_symmetric 2 HiC.two_by_two).2 = false
  ∧ ((HiC.make_symmetric 2 HiC.two_by_two).1 = false
     → (HiC.make_symmetric 2 HiC.two_by_two).2 = HiC.two_by_two).
Proof. apply symmetrize_dico_symmetric. by_compute. Defined.

(** X15: [symmetrize_dico] keeps the dictionary sparse: when no zero is
    stored before, none is stored after; and no key is removed. *)
Theorem symmetrize_dico_sparse (ncol : nat) (hic : gmap nat Z) :
  map_Forall (λ _ v, v ≠ 0) hic →
  map_Forall (λ _ v, v ≠ 0) (HiC.symmetrize_dico ncol hic)
  ∧ dom hic ⊆ dom (HiC.symmetrize_dico ncol hic).
Proof.
  intros Hnz. split.
  - apply (symmetrize_dico_ind ncol (map_Forall (λ _ v, v ≠ 0))); [|done].
    intros h i j Hh. unfold HiC.symmetrize_cell. simpl.
    case_decide; [|done]. by repeat apply map_Forall_insert_2.
  - apply (symmetrize_dico_ind ncol (λ h, dom hic ⊆ dom h)); [|done].
    intros h i j Hh. unfold HiC.symmetrize_cell. simpl.
    case_decide; [|done]. rewrite !dom_insert_L. set_solver.
Qed.

Lemma symmetrize_dico_sparse_witness :
  map_Forall (λ _ v, v ≠ 0) (HiC.symmetrize_dico 2 HiC.two_by_two)
  ∧ dom HiC.two_by_two ⊆ dom (HiC.symmetrize_dico 2 HiC.two_by_two).
Proof. apply symmetrize_dico_sparse. by_compute. Defined.

(** X16: [symmetrize_dico] writes inside the matrix only: a key from
    [ncol * ncol] on has after what it had before. *)
Theorem symmetrize_dico_outside (ncol : nat) (hic : gmap nat Z) (p : nat) :
  (ncol * ncol ≤ p)%nat → HiC.symmetrize_dico ncol hic !! p = hic !! p.
Proof.
  intros Hp. rewrite symmetrize_dico_pairs. apply fold_pairs_other.
  apply Forall_forall. intros [i j] Hij%elem_of_pairs. simpl.
  assert (i * ncol + j < ncol * ncol)%nat by nia.
  assert (j * ncol + i < ncol * ncol)%nat by nia. lia.
Qed.

Lemma symmetrize_dico_outside_witness :
  HiC.symmetrize_dico 2 HiC.two_by_two !! 4%nat = HiC.two_by_two !! 4%nat.
Proof. apply symmetrize_dico_outside. lia. Defined.

(** * [is_asymmetric] and [symmetrize] *)

Section MatrixCells.

Context {A : Type} (add : A → A → A).

Implicit Types (m : list (list A)) (i j a b k : nat) (ps : list (nat * nat)).

Lemma getcell_Ok m i j x : Mat.getcell m i j = Mat.Ok x ↔ Mat.cell m i j = Some x.
Proof.
  unfold Mat.getcell, Mat.cell, Mat.getitem.
  destruct (m !! i) as [row|]; simpl; [|done].
  destruct (row !! j); simpl; split; congruence.
Qed.

Lemma getcell_Raise m i j e :
  Mat.getcell m i j = Mat.Raise e → e = Mat.IndexError ∧ Mat.cell m i j = None.
Proof.
  unfold Mat.getcell, Mat.cell, Mat.getitem.
  destruct (m !! i) as [row|]; simpl; [|by intros [= <-]].
  destruct (row !! j); simpl; [done|by intros [= <-]].
Qed.

(** [matrix[i][j] = v] on a cell that exists changes that cell only. *)
Lemma setcell_Ok m i j v m' :
  Mat.setcell m i j v = Mat.Ok m' →
  length m' = length m
  ∧ (∀ k, length <$> m' !! k = length <$> m !! k)
  ∧ Mat.cell m' i j = Some v
  ∧ ∀ a b, (a, b) ≠ (i, j) → Mat.cell m' a b = Mat.cell m a b.
Proof.
  unfold Mat.setcell, Mat.getitem, Mat.setitem, Mat.cell.
  destruct (m !! i) as [row|] eqn:Hi; simpl; [|done].
  case_decide as Hj; simpl; [|done]. intros [= <-].
  pose proof (lookup_lt_Some _ _ _ Hi) as Hlt.
  split; [by rewrite length_insert|]. split; [|split].
  - intros k. destruct (decide (i = k)) as [<-|Hk].
    + rewrite list_lookup_insert_eq, Hi by done. simpl. by rewrite length_insert.
    + by rewrite list_lookup_insert_ne.
  - rewrite list_lookup_insert_eq by done. simpl. by apply list_lookup_insert_eq.
  - intros a b Hab. destruct (decide (i = a)) as [<-|Ha].
    + rewrite list_lookup_insert_eq, Hi by done. simpl.
      apply list_lookup_insert_ne. congruence.
    + by rewrite list_lookup_insert_ne.
Qed.

Lemma setcell_Raise m i j v e :
  Mat.setcell m i j v = Mat.Raise e → e = Mat.IndexError ∧ Mat.cell m i j = None.
Proof.
  unfold Mat.setcell, Mat.getitem, Mat.setitem, Mat.cell.
  destruct (m !! i) as [row|]; simpl; [|by intros [= <-]].
  case_decide as Hj; simpl; [done|]. intros [= <-]. split; [done|].
  apply lookup_ge_None. lia.
Qed.

(** One turn of the inner loop. *)
Lemma symmetrize_cell_Ok m i j m' :
  Mat.symmetrize_cell add m i j = Mat.Ok m' →
  length m' = length m
  ∧ (∀ k, length <$> m' !! k = length <$> m !! k)
  ∧ is_Some (Mat.cell_sum add m i j)
  ∧ Mat.cell m' i j = Mat.cell_sum add m i j
  ∧ Mat.cell m' j i = Mat.cell_sum add m i j
  ∧ ∀ a b, (a, b) ≠ (i, j) → (a, b) ≠ (j, i) → Mat.cell m' a b = Mat.cell m a b.
Proof.
  unfold Mat.symmetrize_cell, Mat.cell_sum.
  destruct (Mat.getcell m i j) as [x|] eqn:Hx; simpl; [|done].
  destruct (Mat.getcell m j i) as [y|] eqn:Hy; simpl; [|done].
  apply getcell_Ok in Hx, Hy. rewrite Hx, Hy. simpl.
  destruct (Mat.setcell m i j (add x y)) as [m1|] eqn:H1; simpl; [|done].
  intros H2.
  apply setcell_Ok in H1 as (L1 & R1 & C1 & O1).
  apply setcell_Ok in H2 as (L2 & R2 & C2 & O2).
  split; [congruence|]. split; [intros k; by rewrite R2, R1|].
  split; [done|]. split; [|split; [done|]].
  - destruct (decide ((i, j) = (j, i))) as [[= ->]|Hne]; [done|].
    by rewrite O2.
  - intros a b H1' H2'. by rewrite O2, O1.
Qed.

Lemma symmetrize_cell_Raise m i j e :
  Mat.symmetrize_cell add m i j = Mat.Raise e → e = Mat.IndexError.
Proof.
  unfold Mat.symmetrize_cell.
  destruct (Mat.getcell m i j) as [x|] eqn:Hx; simpl;
    [|intros [= <-]; by apply getcell_Raise in Hx as [-> _]].
  destruct (Mat.getcell m j i) as [y|] eqn:Hy; simpl;
    [|intros [= <-]; by apply getcell_Raise in Hy as [-> _]].
  destruct (Mat.setcell m i j (add x y)) as [m1|] eqn:H1; simpl;
    [|intros [= <-]; by apply setcell_Raise in H1 as [-> _]].
  by intros [-> _]%setcell_Raise.
Qed.

Lemma symmetrize_cell_total m i j :
  is_Some (Mat.cell m i j) → is_Some (Mat.cell m j i) →
  ∃ m', Mat.symmetrize_cell add m i j = Mat.Ok m'.
Proof.
  intros [x Hx] [y Hy].
  destruct (Mat.symmetrize_cell add m i j) as [m'|e] eqn:Hrun; [by exists m'|].
  exfalso. revert Hrun. unfold Mat.symmetrize_cell.
  apply getcell_Ok in Hx as Hx', Hy as Hy'. rewrite Hx', Hy'. simpl.
  destruct (Mat.setcell m i j (add x y)) as [m1|] eqn:H1; simpl.
  - apply setcell_Ok in H1 as (_ & _ & C1 & O1).
    intros [_ Hnone]%setcell_Raise.
    destruct (decide ((j, i) = (i, j))) as [[= ->]|Hne]; [congruence|].
    rewrite O1 in Hnone by done. congruence.
  - apply setcell_Raise in H1 as [_ Hnone]. congruence.
Qed.

(** The loops as one loop over the pairs. *)
Lemma for_each_app {S B} (l1 l2 : list B) (body : S → B → Mat.result S) (s : S) :
  Mat.for_each (l1 ++ l2) body s = s' ← Mat.for_each l1 body s; Mat.for_each l2 body s'.
Proof.
  revert s. induction l1 as [|x l1 IH]; intros s; simpl; [done|].
  destruct (body s x); simpl; [apply IH|done].
Qed.

Lemma for_each_fmap {S B C} (g : C → B) (l : list C) (body : S → B → Mat.result S)
    (s : S) :
  Mat.for_each (g <$> l) body s = Mat.for_each l (λ s x, body s (g x)) s.
Proof.
  revert s. induction l as [|x l IH]; intros s; simpl; [done|].
  destruct (body s (g x)); simpl; [apply IH|done].
Qed.

Lemma for_each_pairs (n : nat) (l : list nat) m :
  Mat.for_each l
    (λ m i, Mat.for_each (HiC.range i n) (λ m j, Mat.symmetrize_cell add m i j) m) m
  = Mat.for_each (i ← l; pair i <$> HiC.range i n)
      (λ m q, Mat.symmetrize_cell add m q.1 q.2) m.
Proof.
  revert m. induction l as [|i l IH]; intros m; [done|].
  rewrite bind_cons, for_each_app, for_each_fmap. simpl.
  destruct (Mat.for_each (HiC.range i n) _ m); simpl; [apply IH|done].
Qed.

Lemma symmetrize_pairs m :
  Mat.symmetrize add m
  = Mat.for_each (HiC.pairs (length m))
      (λ m q, Mat.symmetrize_cell add m q.1 q.2) m.
Proof. apply for_each_pairs. Qed.

Local Abbreviation step := (λ m q, Mat.symmetrize_cell add m q.1 q.2).

Lemma for_each_Raise ps m e :
  Mat.for_each ps step m = Mat.Raise e → e = Mat.IndexError.
Proof.
  revert m. induction ps as [|q ps IH]; intros m; simpl; [done|].
  destruct (Mat.symmetrize_cell add m q.1 q.2) as [m1|e1] eqn:H1; simpl.
  - apply IH.
  - intros [= <-]. by apply symmetrize_cell_Raise in H1.
Qed.

Lemma for_each_lengths ps m m' :
  Mat.for_each ps step m = Mat.Ok m' →
  length m' = length m ∧ ∀ k, length <$> m' !! k = length <$> m !! k.
Proof.
  revert m. induction ps as [|q ps IH]; intros m; simpl.
  - by intros [= <-].
  - destruct (Mat.symmetrize_cell add m q.1 q.2) as [m1|] eqn:H1; simpl; [|done].
    intros [L R]%IH. apply symmetrize_cell_Ok in H1 as (L1 & R1 & _).
    split; [congruence|]. intros k. by rewrite R, R1.
Qed.

Lemma for_each_untouched ps m m' a b :
  Mat.for_each ps step m = Mat.Ok m' →
  (a, b) ∉ ps → (b, a) ∉ ps → Mat.cell m' a b = Mat.cell m a b.
Proof.
  revert m. induction ps as [|[i j] ps IH]; intros m; simpl.
  - by intros [= <-].
  - destruct (Mat.symmetrize_cell add m i j) as [m1|] eqn:H1; simpl; [|done].
    intros Hrun Hab%not_elem_of_cons Hba%not_elem_of_cons.
    rewrite (IH m1) by tauto.
    apply symmetrize_cell_Ok in H1 as (_ & _ & _ & _ & _ & O1).
    apply O1; [tauto|]. intros [= -> ->]. tauto.
Qed.

(** A pair of the list leaves the sum of its two cells in both. *)
Lemma for_each_touched ps m m' a b :
  Mat.for_each ps step m = Mat.Ok m' →
  NoDup ps → Forall (λ q, (q.1 ≤ q.2)%nat) ps → (a, b) ∈ ps →
  is_Some (Mat.cell_sum add m a b)
  ∧ Mat.cell m' a b = Mat.cell_sum add m a b
  ∧ Mat.cell m' b a = Mat.cell_sum add m a b.
Proof.
  revert m. induction ps as [|[i j] ps IH]; intros m; simpl.
  { intros _ _ _ Hin. by apply elem_of_nil in Hin. }
  destruct (Mat.symmetrize_cell add m i j) as [m1|] eqn:H1; simpl; [|done].
  intros Hrun [Hnew Hnodup]%NoDup_cons [Hij Hps]%Forall_cons Hin.
  simpl in Hij.
  apply symmetrize_cell_Ok in H1 as (_ & _ & S1 & C1 & C2 & O1).
  assert (Hji : (j, i) ∉ ps).
  { intros Hji. rewrite Forall_forall in Hps. specialize (Hps _ Hji). simpl in Hps.
    assert (i = j) as -> by lia. done. }
  apply elem_of_cons in Hin as [[= -> ->]|Hin].
  - split; [done|].
    by rewrite !(for_each_untouched ps m1 m') by done.
  - assert (Hle : (a ≤ b)%nat).
    { rewrite Forall_forall in Hps. by specialize (Hps _ Hin). }
    assert (Hsum : Mat.cell_sum add m1 a b = Mat.cell_sum add m a b).
    { unfold Mat.cell_sum. rewrite !O1; [done|..].
      - intros [= -> ->]. done.
      - intros [= -> ->]. assert (i = j) as -> by lia. done.
      - intros [= -> ->]. assert (i = j) as -> by lia. done.
      - intros [= -> ->]. done. }
    rewrite <- Hsum. by apply IH.
Qed.

Lemma for_each_total ps m :
  (∀ a b, (a < length m)%nat → (b < length m)%nat → is_Some (Mat.cell m a b)) →
  Forall (λ q, (q.1 < length m)%nat ∧ (q.2 < length m)%nat) ps →
  ∃ m', Mat.for_each ps step m = Mat.Ok m'.
Proof.
  intros Hcells Hps. revert m Hcells Hps.
  induction ps as [|[i j] ps IH]; intros m Hcells Hps; simpl; [by exists m|].
  apply Forall_cons in Hps as [[Hi Hj] Hps]. simpl in Hi, Hj.
  destruct (symmetrize_cell_total m i j) as [m1 H1]; [by apply Hcells..|].
  rewrite H1. simpl.
  apply symmetrize_cell_Ok in H1 as (L1 & _ & S1 & C1 & C2 & O1).
  apply IH; rewrite L1; [|done].
  intros a b Ha Hb.
  destruct (decide ((a, b) = (i, j))) as [[= -> ->]|H1]; [by rewrite C1|].
  destruct (decide ((a, b) = (j, i))) as [[= -> ->]|H2]; [by rewrite C2|].
  rewrite O1 by done. by apply Hcells.
Qed.

(** Rows that are long enough have all the cells of the square. *)
Lemma wide_cells m :
  Mat.wide m ↔
  ∀ a b, (a < length m)%nat → (b < length m)%nat → is_Some (Mat.cell m a b).
Proof.
  unfold Mat.wide, Mat.cell. rewrite Forall_lookup. split.
  - intros Hwide a b Ha Hb.
    destruct (lookup_lt_is_Some_2 m a Ha) as [row Hrow]. rewrite Hrow. simpl.
    apply lookup_lt_is_Some_2. specialize (Hwide a row Hrow). lia.
  - intros Hcells a row Hrow.
    pose proof (lookup_lt_Some _ _ _ Hrow) as Ha.
    destruct (decide (length m ≤ length row)%nat) as [?|Hshort]; [done|].
    destruct (Hcells a (length m - 1)%nat) as [x Hx]; [lia..|].
    rewrite Hrow in Hx. simpl in Hx. apply lookup_lt_Some in Hx. lia.
Qed.

End MatrixCells.

Section MatrixSymmetry.

Context {A : Type} (ne : A → A → bool) (isnan : A → Mat.result bool).

Implicit Types (m : list (list A)) (maxi : list A) (i j : nat).

(** The inner loop goes through exactly when every pair it looks at is the
    same. *)
Lemma differs_in_step m maxi i j js x y :
  maxi !! j = Some x → Mat.cell m j i = Some y →
  Mat.differs_in ne isnan m maxi i (j :: js) = Mat.Ok false
  ↔ Mat.same ne isnan x y ∧ Mat.differs_in ne isnan m maxi i js = Mat.Ok false.
Proof.
  intros Hx Hy%getcell_Ok. simpl. unfold Mat.getitem. rewrite Hx. simpl.
  rewrite Hy. simpl. unfold Mat.same.
  destruct (ne x y); [|naive_solver].
  destruct (isnan x) as [[|]|]; simpl; [|naive_solver..].
  destruct (isnan y) as [[|]|]; simpl; naive_solver.
Qed.

Lemma differs_in_false m maxi i js :
  Mat.differs_in ne isnan m maxi i js = Mat.Ok false →
  ∀ j x y, j ∈ js → maxi !! j = Some x → Mat.cell m j i = Some y →
           Mat.same ne isnan x y.
Proof.
  induction js as [|j js IH].
  { intros _ j x y Hj. by apply elem_of_nil in Hj. }
  intros Hrun.
  assert (∃ x y, maxi !! j = Some x ∧ Mat.cell m j i = Some y) as (x & y & Hx & Hy).
  { simpl in Hrun. unfold Mat.getitem in Hrun at 1.
    destruct (maxi !! j) as [x|]; simpl in Hrun; [|done].
    destruct (Mat.getcell m j i) as [y|] eqn:Hy; simpl in Hrun; [|done].
    apply getcell_Ok in Hy. by exists x, y. }
  pose proof (proj1 (differs_in_step m maxi i j js x y Hx Hy) Hrun)
    as [Hsame Hrest].
  intros j' x' y' [->|Hj']%elem_of_cons Hx' Hy'.
  - assert (x = x') as -> by congruence. assert (y = y') as -> by congruence.
    done.
  - by eapply IH.
Qed.

Lemma differs_in_same m maxi i js :
  (∀ j, j ∈ js → ∃ x y, maxi !! j = Some x ∧ Mat.cell m j i = Some y
                        ∧ Mat.same ne isnan x y) →
  Mat.differs_in ne isnan m maxi i js = Mat.Ok false.
Proof.
  induction js as [|j js IH]; intros H; [done|].
  destruct (H j) as (x & y & Hx & Hy & Hsame); [by left|].
  apply (differs_in_step m maxi i j js x y Hx Hy). split; [done|].
  apply IH. intros j' Hj'. apply H. by right.
Qed.

Lemma is_asymmetric_from_false m n rows :
  Mat.is_asymmetric_from ne isnan m n rows = Mat.Ok false →
  ∀ i j x y, i ∈ rows → (i < j < n)%nat →
             Mat.cell m i j = Some x → Mat.cell m j i = Some y →
             Mat.same ne isnan x y.
Proof.
  induction rows as [|i rows IH]; simpl.
  { intros _ i j x y Hi. by apply elem_of_nil in Hi. }
  unfold Mat.getitem at 1. destruct (m !! i) as [maxi|] eqn:Hmaxi; simpl; [|done].
  destruct (Mat.differs_in ne isnan m maxi i (HiC.range (i + 1) n))
    as [[|]|] eqn:Hrow; simpl; [done| |done].
  intros Hrest i' j x y [->|Hi']%elem_of_cons Hij Hx Hy.
  - apply (differs_in_false m maxi i _ Hrow j x y); [|by rewrite <- Hx; unfold Mat.cell; rewrite Hmaxi|done].
    unfold HiC.range. apply elem_of_seq. lia.
  - by eapply IH.
Qed.

Lemma is_asymmetric_from_same m n rows :
  (∀ i, i ∈ rows → (i < length m)%nat) →
  (∀ i j, i ∈ rows → (i < j < n)%nat →
          ∃ x y, Mat.cell m i j = Some x ∧ Mat.cell m j i = Some y
                 ∧ Mat.same ne isnan x y) →
  Mat.is_asymmetric_from ne isnan m n rows = Mat.Ok false.
Proof.
  induction rows as [|i rows IH]; intros Hrows H; [done|]. simpl.
  destruct (lookup_lt_is_Some_2 m i) as [maxi Hmaxi]; [apply Hrows; by left|].
  unfold Mat.getitem at 1. rewrite Hmaxi. simpl.
  rewrite (differs_in_same m maxi i).
  - simpl. apply IH.
    + intros i' Hi'. apply Hrows. by right.
    + intros i' j Hi'. apply H. by right.
  - intros j Hj%elem_of_seq.
    destruct (H i j) as (x & y & Hx & Hy & Hsame); [by left|lia|].
    exists x, y. split; [|done]. rewrite <- Hx. unfold Mat.cell. by rewrite Hmaxi.
Qed.

End MatrixSymmetry.

(** X17: on a matrix whose rows have at least as many columns as there are
    rows, [symmetrize] returns; the matrix keeps its shape, each cell
    [(i, j)] of the square and its mirror [(j, i)] hold the sum of the two
    (a cell of the diagonal the sum with itself), and the columns beyond the
    square are as before. *)
Theorem symmetrize_sum {A : Type} (add : A → A → A) (m : list (list A)) :
  Mat.wide m →
  ∃ m', Mat.symmetrize add m = Mat.Ok m'
        ∧ length m' = length m
        ∧ (∀ k, length <$> m' !! k = length <$> m !! k)
        ∧ (∀ i j, (i ≤ j < length m)%nat →
                  Mat.cell m' i j = Mat.cell_sum add m i j
                  ∧ Mat.cell m' j i = Mat.cell_sum add m i j)
        ∧ (∀ i j, (length m ≤ j)%nat → Mat.cell m' i j = Mat.cell m i j).
Proof.
  intros Hwide. pose proof (proj1 (wide_cells m) Hwide) as Hcells. clear Hwide.
  rename Hcells into Hwide.
  destruct (for_each_total add (HiC.pairs (length m)) m Hwide) as [m' Hrun].
  { apply Forall_forall. intros [a b] Hab%elem_of_pairs. simpl. lia. }
  exists m'. rewrite symmetrize_pairs. split; [done|].
  destruct (for_each_lengths add _ _ _ Hrun) as [L R].
  split; [done|]. split; [done|]. split.
  - intros i j Hij.
    eapply for_each_touched; [done|apply NoDup_pairs| |by apply elem_of_pairs].
    apply Forall_forall. intros [a b] Hab%elem_of_pairs. simpl. lia.
  - intros i j Hj. eapply for_each_untouched; [done|..];
      rewrite elem_of_pairs; lia.
Qed.

Lemma symmetrize_sum_witness :
  ∃ m', Mat.symmetrize Z.add Mat.two_by_two = Mat.Ok m'
        ∧ length m' = length Mat.two_by_two
        ∧ (∀ k, length <$> m' !! k = length <$> Mat.two_by_two !! k)
        ∧ (∀ i j, (i ≤ j < length Mat.two_by_two)%nat →
                  Mat.cell m' i j = Mat.cell_sum Z.add Mat.two_by_two i j
                  ∧ Mat.cell m' j i = Mat.cell_sum Z.add Mat.two_by_two i j)
        ∧ (∀ i j, (length Mat.two_by_two ≤ j)%nat →
                  Mat.cell m' i j = Mat.cell Mat.two_by_two i j).
Proof. apply symmetrize_sum. by_compute. Defined.

(** X18: [symmetrize] raises [IndexError] exactly when a row has fewer
    columns than the matrix has rows, and raises nothing else. *)
Theorem symmetrize_IndexError {A : Type} (add : A → A → A) (m : list (list A)) :
  (Mat.symmetrize add m = Mat.Raise Mat.IndexError ↔ ¬ Mat.wide m)
  ∧ ∀ e, Mat.symmetrize add m = Mat.Raise e → e = Mat.IndexError.
Proof.
  rewrite symmetrize_pairs. split; [split|].
  - intros Hrun Hwide. pose proof (proj1 (wide_cells m) Hwide) as Hcells.
    clear Hwide. rename Hcells into Hwide.
    destruct (for_each_total add (HiC.pairs (length m)) m Hwide) as [m' Hrun'];
      [|congruence].
    apply Forall_forall. intros [a b] Hab%elem_of_pairs. simpl. lia.
  - intros Hnarrow.
    destruct (Mat.for_each (HiC.pairs (length m)) _ m) as [m'|e] eqn:Hrun;
      [|by apply for_each_Raise in Hrun as ->].
    destruct Hnarrow. apply wide_cells. intros a b Ha Hb.
    assert (Hpairs : Forall (λ q : nat * nat, (q.1 ≤ q.2)%nat) (HiC.pairs (length m))).
    { apply Forall_forall. intros [i j] Hij%elem_of_pairs. simpl. lia. }
    destruct (le_ge_dec a b).
    + destruct (for_each_touched add _ _ _ a b Hrun (NoDup_pairs _) Hpairs)
        as [[v Hv] _]; [apply elem_of_pairs; lia|].
      unfold Mat.cell_sum in Hv. by destruct (Mat.cell m a b).
    + destruct (for_each_touched add _ _ _ b a Hrun (NoDup_pairs _) Hpairs)
        as [[v Hv] _]; [apply elem_of_pairs; lia|].
      unfold Mat.cell_sum in Hv. destruct (Mat.cell m b a); [|done].
      simpl in Hv. by destruct (Mat.cell m a b).
  - intros e. apply for_each_Raise.
Qed.

(** X19: on a matrix whose rows are long enough, [is_asymmetric] returns
    [False] exactly when every cell above the diagonal and its mirror are
    equal or both not a number. *)
Theorem is_asymmetric_same {A : Type} (ne : A → A → bool)
    (isnan : A → Mat.result bool) (m : list (list A)) :
  Mat.wide m →
  Mat.is_asymmetric ne isnan m = Mat.Ok false
  ↔ ∀ i j x y, (i < j < length m)%nat →
               Mat.cell m i j = Some x → Mat.cell m j i = Some y →
               Mat.same ne isnan x y.
Proof.
  intros Hwide. unfold Mat.is_asymmetric. simpl. split.
  - intros Hrun i j x y Hij.
    apply (is_asymmetric_from_false ne isnan m _ _ Hrun).
    + unfold HiC.range. apply elem_of_seq. lia.
    + done.
  - intros Hsame. apply is_asymmetric_from_same.
    + intros i Hi%elem_of_seq. lia.
    + intros i j Hi%elem_of_seq Hij.
      pose proof (proj1 (wide_cells m) Hwide) as Hcells. clear Hwide.
      rename Hcells into Hwide.
      destruct (Hwide i j) as [x Hx]; [lia..|].
      destruct (Hwide j i) as [y Hy]; [lia..|].
      exists x, y. split; [done|]. split; [done|]. by eapply Hsame.
Qed.

Lemma is_asymmetric_same_witness :
  Mat.is_asymmetric Mat.int_ne Mat.int_isnan [[1; 2]; [2; 0]] = Mat.Ok false
  ↔ ∀ i j x y, (i < j < 2)%nat →
               Mat.cell [[1; 2]; [2; 0]] i j = Some x →
               Mat.cell [[1; 2]; [2; 0]] j i = Some y →
               Mat.same Mat.int_ne Mat.int_isnan x y.
Proof. apply (is_asymmetric_same Mat.int_ne Mat.int_isnan). by_compute. Defined.

(** X20: after [symmetrize], [is_asymmetric] returns [False], for integers
    and for floats: it is enough that a value that differs from itself is
    not a number for [isnan]. *)
Theorem symmetrize_is_symmetric {A : Type} (ne : A → A → bool)
    (isnan : A → Mat.result bool) (add : A → A → A) (m : list (list A)) :
  Mat.wide m →
  (∀ v, ne v v = true → isnan v = Mat.Ok true) →
  ∃ m', Mat.symmetrize add m = Mat.Ok m'
        ∧ Mat.is_asymmetric ne isnan m' = Mat.Ok false.
Proof.
  intros Hwide Hnan. pose proof (proj1 (wide_cells m) Hwide) as Hcells. clear Hwide.
  rename Hcells into Hwide.
  assert (Hall : Forall (λ q : nat * nat, (q.1 ≤ q.2)%nat) (HiC.pairs (length m))).
  { apply Forall_forall. intros [a b] Hab%elem_of_pairs. simpl. lia. }
  destruct (for_each_total add (HiC.pairs (length m)) m Hwide) as [m' Hrun].
  { apply Forall_forall. intros [a b] Hab%elem_of_pairs. simpl. lia. }
  exists m'. rewrite symmetrize_pairs. split; [done|].
  destruct (for_each_lengths add _ _ _ Hrun) as [L _].
  unfold Mat.is_asymmetric. simpl. apply is_asymmetric_from_same.
  - intros i Hi%elem_of_seq. lia.
  - intros i j Hi%elem_of_seq Hij. rewrite L in Hij.
    destruct (for_each_touched add _ _ _ i j Hrun (NoDup_pairs _) Hall)
      as ([v Hv] & Hij' & Hji'); [apply elem_of_pairs; lia|].
    exists v, v. rewrite Hij', Hji'. split; [done|]. split; [done|].
    unfold Mat.same. destruct (ne v v) eqn:Hne; [right|by left].
    by rewrite (Hnan v Hne).
Qed.

Lemma symmetrize_is_symmetric_witness :
  ∃ m', Mat.symmetrize Z.add Mat.two_by_two = Mat.Ok m'
        ∧ Mat.is_asymmetric Mat.int_ne Mat.int_isnan m' = Mat.Ok false.
Proof.
  apply symmetrize_is_symmetric; [by_compute|].
  intros v. unfold Mat.int_ne. by rewrite Z.eqb_refl.
Defined.

(** * The categories of the rules on geometry, over the file *)

Section Category.

Context (P : params) (frag_count : gmap (string * Z) Z) (cut : Z).

Lemma classify_category rp m :
  classify P frag_count cut (rp_read rp) (rp_cr1 rp) (rp_cr2 rp)
    (rp_ps1 rp) (rp_ps2 rp) (rp_sd1 rp) (rp_sd2 rp)
    (rp_re1 rp) (rp_rs1 rp) (rp_re2 rp) (rp_rs2 rp) m
  = match category P frag_count cut rp with
    | Some c => add_read c (rp_read rp) m
    | None => m
    end.
Proof. unfold classify, category, facing_code. by repeat case_decide. Qed.

Lemma category_geometry rp c :
  category P frag_count cut rp = Some c → c ∈ geometry.
Proof.
  unfold category, geometry.
  repeat case_decide; intros [= <-]; by apply (bool_decide_unpack _).
Qed.

(** A line goes through the body of the loop when it parses, and then the
    chain of rules is applied to its fields. *)
Lemma process_line_category st line st' :
  process_line P frag_count cut st line = Ok st' →
  ∃ rp, parse_line line = Some rp ∧ rp_read rp = read_of line
        ∧ masked st'
          = match category P frag_count cut rp with
            | Some c => add_read c (rp_read rp)
                          (masked (check_uniq (read_of line) (uniq_key_of line) st))
            | None => masked (check_uniq (read_of line) (uniq_key_of line) st)
            end.
Proof.
  intros H.
  assert (Hp : parses P frag_count cut st line) by (by exists st').
  apply process_line_parses in Hp
    as (read & cr1 & ps1 & sd1 & x1 & rs1 & re1 & cr2 & ps2 & sd2 & x2
        & rs2 & re2 & Hsplit & Hints).
  unfold process_line, parse_line, read_of, uniq_key_of in *.
  rewrite Hsplit in *.
  repeat match goal with
         | Hf : Forall _ (_ :: _) |- _ =>
             let Hi := fresh "Hi" in
             apply Forall_cons in Hf as [[? Hi] Hf]; rewrite Hi in H |- *
         end.
  simpl in H. injection H as <-. eexists. split; [done|]. split; [done|].
  simpl. apply (classify_category (Build_read_pair _ _ _ _ _ _ _ _ _ _ _)).
Qed.

Lemma category_inv_step seen st line st' :
  process_line P frag_count cut st line = Ok st' →
  dom (masked st) = dom masked_init →
  category_inv P frag_count cut seen (masked st) →
  category_inv P frag_count cut (seen ++ [line]) (masked st').
Proof.
  intros (rp & Hrp & Hread & Hm)%process_line_category Hdom Hinv c id Hc.
  pose proof (check_uniq_cases (read_of line) (uniq_key_of line) st)
    as (Hdom1 & Hsame & _).
  specialize (Hsame c (geometry_not_5 c Hc)).
  set (st1 := check_uniq (read_of line) (uniq_key_of line) st) in *.
  assert (Hold : (∃ l r, l ∈ seen ++ [line] ∧ parse_line l = Some r
                         ∧ rp_read r = id ∧ category P frag_count cut r = Some c)
                 ↔ id ∈ reads_of (masked st) c
                   ∨ (rp_read rp = id ∧ category P frag_count cut rp = Some c)).
  { rewrite (Hinv c id Hc). split.
    - intros (l & r & [Hl|Hl%list_elem_of_singleton]%elem_of_app & Hr & ? & ?).
      + left. by exists l, r.
      + right. subst l. by replace rp with r by congruence.
    - intros [(l & r & Hl & ?)|[? ?]].
      + exists l, r. split; [|done]. apply elem_of_app. by left.
      + exists line, rp. split; [|done]. apply elem_of_app. right. by left. }
  rewrite Hold, Hm. clear Hold.
  destruct (category P frag_count cut rp) as [c0|] eqn:Hcat.
  - destruct (decide (c0 = c)) as [->|Hne].
    + rewrite reads_of_add_read, Hsame, elem_of_union, elem_of_singleton.
      * naive_solver.
      * rewrite Hdom1, Hdom, dom_masked_init. revert Hc. unfold geometry.
        rewrite !elem_of_cons, !elem_of_list_to_set, !elem_of_cons. naive_solver.
    + rewrite reads_of_add_read_ne, Hsame by done. naive_solver.
  - rewrite Hsame. naive_solver.
Qed.

Lemma category_inv_lines seen st lines st' :
  process_lines P frag_count cut st lines = Ok st' →
  dom (masked st) = dom masked_init →
  category_inv P frag_count cut seen (masked st) →
  category_inv P frag_count cut (seen ++ lines) (masked st').
Proof.
  revert seen st. induction lines as [|line lines IH]; intros seen st; simpl.
  - intros [= <-] _ Hinv. by rewrite (right_id_L [] (++)).
  - destruct (process_line P frag_count cut st line) as [st1|] eqn:Hl; [|done].
    simpl. intros Hrun Hdom Hinv. rewrite cons_middle, (assoc_L (++)).
    apply (IH _ st1 Hrun).
    + by rewrite (process_line_dom _ _ _ _ _ _ Hl).
    + by eapply category_inv_step.
Qed.

End Category.

(** X21: after [filter_reads], each of the categories 1, 2, 3, 4, 6, 7, 8, 9
    is exactly the set of the read ids of the lines of the file that the
    chain of rules, with the threshold computed, puts in it: a line is
    judged on its own fields, whatever the lines before and after it. *)
Theorem categories_exact (rnd : Q → Q) (frag_count : gmap (string * Z) Z)
    (F : string) (P : params) (m : gmap Z entry) :
  filter_reads rnd frag_count F P = Ok m →
  ∃ cut, threshold rnd frag_count (over_represented P) = Ok cut
         ∧ ∀ c id, c ∈ geometry →
             id ∈ reads_of m c
             ↔ ∃ line rp, line ∈ Py.lines F ∧ parse_line line = Some rp
                          ∧ rp_read rp = id
                          ∧ category P frag_count cut rp = Some c.
Proof.
  intros (cut & st & Hcut & Hrun & ->)%filter_reads_Ok.
  exists cut. split; [done|].
  apply (category_inv_lines P frag_count cut [] start_state (Py.lines F) st Hrun);
    [done|].
  intros c id Hc. simpl. rewrite reads_of_masked_init. split; [done|].
  intros (line & rp & Hline & _). by apply elem_of_nil in Hline.
Qed.

Lemma categories_exact_witness :
  ∃ m cut,
    filter_reads exact two_fragments three_pairs half_params = Ok m
    ∧ threshold exact two_fragments (over_represented half_params) = Ok cut
    ∧ ∀ c id, c ∈ geometry →
        id ∈ reads_of m c
        ↔ ∃ line rp, line ∈ Py.lines three_pairs ∧ parse_line line = Some rp
                     ∧ rp_read rp = id
                     ∧ category half_params two_fragments cut rp = Some c.
Proof.
  assert (∃ m, filter_reads exact two_fragments three_pairs half_params = Ok m)
    as [m Hrun] by (eexists; vm_compute; reflexivity).
  destruct (categories_exact exact two_fragments three_pairs half_params m Hrun)
    as (cut & Hcut & Hcat).
  exists m, cut. split; [exact Hrun|]. split; [exact Hcut|exact Hcat].
Defined.
